(** * The TikTok collection-and-merge pipeline

    A shallow embedding of the three collector scripts of the repository

    - [src/tiktok_data_collect.py]            (the first, "legacy" collector),
    - [src/src/tiktok_data_collect.py]        (the local collector),
    - [src/src/tiktok_data_collect_s3.py]     (the Lambda / S3 collector),

    and the properties of the comment ranking, the per-candidate enrichment,
    the feed walking loops and the dataset merge.

    Conventions.  Python integers are [Z]; Python [str] values are [string]
    (UTF-8 bytes: bytewise lexicographic order on UTF-8 coincides with
    Python's code point order); a [set] of ids is a [gset string]; the
    thumbnail store (directory or bucket prefix) is a [gmap] from location to
    stored bytes; a pandas DataFrame is the list of its rows, in order.
    Remote collaborators are modelled by the answers they give: every value
    pulled from a feed carries the responses the network will give for it. *)

From Stdlib Require Import Ascii String.
From stdpp Require Import base decidable option numbers list sorting gmap strings pretty.

Local Open Scope Z_scope.

(** ** Comment Ranker: [fetch_top_comments] *)

Module Ranker.

(** One item produced by [video.comments(count=50)].  A [WellFormed] item
    has a readable [as_dict["digg_count"]] (possibly [None], which
    [... or 0] turns into 0) and a [text]; for a [Malformed] item reading
    either of them raises, and the item is skipped by the inner
    [try/except]. *)
Inductive Comment :=
  | WellFormed (digg_count : option Z) (text : string)
  | Malformed.

(** The whole page as the async generator delivers it: the items it yields
    and whether it then stops normally ([StopAsyncIteration]) or raises. *)
Record CommentStream := mkStream {
  yielded : list Comment;
  raises_at_end : bool
}.

(** [(c.as_dict["digg_count"] or 0, c.text)] *)
Definition entry (c : Comment) : option (Z * string) :=
  match c with
  | WellFormed d t => Some (default 0 d, t)
  | Malformed => None
  end.

(** The list [comments] when the loop is left: the first item and all later
    ones go through the same guarded [append]; an exception raised by the
    generator is caught and leaves what was appended so far. *)
Definition collected (s : CommentStream) : list (Z * string) :=
  omap entry (yielded s).

(** Python's order on [(int, str)] tuples: first components, then second. *)
Definition tuple_le (a b : Z * string) : Prop :=
  a.1 < b.1 ∨ (a.1 = b.1 ∧ String.le a.2 b.2).

(** The order [list.sort(reverse=True)] establishes between neighbours. *)
Definition tuple_ge : relation (Z * string) := flip tuple_le.

#[global] Instance tuple_le_dec : RelDecision tuple_le.
Proof. intros a b. unfold tuple_le. apply _. Defined.

#[global] Instance tuple_ge_dec : RelDecision tuple_ge.
Proof. intros a b. unfold tuple_ge, flip. apply _. Defined.

(** [comments.sort(reverse=True)]: Python's sort is a merge sort. *)
Definition sort_reverse (comments : list (Z * string)) : list (Z * string) :=
  merge_sort tuple_ge comments.

(** [fetch_top_comments(video, n)] of the local and of the S3 collector
    (the two bodies differ in their log lines only).  [n] is a count, as at
    every call site ([n=5]). *)
Definition fetch_top_comments (s : CommentStream) (n : nat) : list string :=
  let comments := collected s in
  match comments with
  | [] => []
  | _ :: _ => snd <$> take n (sort_reverse comments)
  end.

(** [fetch_top_comments] of the legacy collector: no per-item guard, so any
    exception (from the generator or from an item) makes it return [[]].
    The items are given as the [(c.stats["diggCount"], c.text)] tuples the
    loop appends; [raises] says whether anything in the loop raised. *)
Definition fetch_top_comments_legacy
    (tuples : list (Z * string)) (raises : bool) (n : nat) : list string :=
  if raises then [] else snd <$> take n (sort_reverse tuples).

(** A page of [M] well-formed [(score, text)] pairs. *)
Definition stream_of (ps : list (Z * string)) (raises : bool) : CommentStream :=
  mkStream ((λ p, WellFormed (Some p.1) p.2) <$> ps) raises.

End Ranker.

(** ** Data model shared by the collectors *)

(** [video.stats]: a key that is absent is [None]; reading it with
    [stats["..."]] then raises [KeyError]. *)
Record Stats := mkStats {
  playCount : option Z;
  diggCount : option Z;
  shareCount : option Z;
  commentCount : option Z;
  repostCount : option Z
}.

(** What a pulled video object exposes to the collectors.  Time stamps are
    integers (microseconds since the epoch, the resolution of [datetime]);
    [.timestamp()] maps them to floats in an order preserving way, and the
    collectors only compare them. *)
Record Video := mkVideo {
  id : string;
  create_time : Z;                       (* video.create_time, see below *)
  desc : option string;                  (* videoDict["desc"] *)
  user_id : string;                      (* video.author.user_id *)
  username : string;                     (* video.author.username *)
  authorStats_followerCount : option Z;  (* videoDict["authorStats"]["followerCount"] *)
  author_followerCount : option Z;       (* author.as_dict["followerCount"], legacy *)
  stats : Stats;
  cover : option string;                 (* videoDict["video"]["cover"] *)
  bytes_cover : option string            (* video.bytes_cover, legacy *)
}.

(** The answer of [requests.get(cover_url)]. *)
Inductive HttpResult :=
  | HttpRaises
  | HttpResponse (status_code : Z) (content : string).

(** A value pulled from [tag.videos(...)] by the local or the S3 collector,
    together with the answers the remote collaborators give while it is
    being processed. *)
Record Pulled := mkPulled {
  video : Video;
  cover_response : HttpResult;
  comment_stream : Ranker.CommentStream
}.

(** One search term's feed: the values the generator yields, and whether it
    then raises instead of stopping. *)
Record Feed (A : Type) := mkFeed {
  items : list A;
  feed_raises : bool
}.
Arguments mkFeed {A} _ _.
Arguments items {A} _.
Arguments feed_raises {A} _.

(** The Media Normalizer ([Image.open(...).convert("RGB").resize(...)] and
    the JPEG encoding): [None] when PIL raises on the payload. *)
Class MediaNormalizer := normalize : string → option string.

(** One row of the dataset.  [hashtags] is filled by the legacy collector
    only, [repost_count] by the S3 collector only; [thumbnail] is the column
    [thumbnail_path] (local, legacy) or [thumbnail_s3_key] (S3). *)
Record Row := mkRow {
  video_id : string;
  posted_ts : Z;
  description : string;
  hashtags : option (list string);
  author_id : string;
  author_name : string;
  follower_count : Z;
  view_count : Z;
  like_count : Z;
  share_count : Z;
  comment_count : Z;
  repost_count : option Z;
  thumbnail : string;
  top_comments : list string
}.

(** Calls to collaborators, in the order they happen. *)
Inductive Event :=
  | EvPull (vid : string)             (* the feed generator yields a video *)
  | EvHeadObject (key : string)       (* s3 head_object *)
  | EvHttpGet (vid url : string)      (* requests.get(cover_url) for a video *)
  | EvNormalize (loc : string)        (* decode, resize, encode *)
  | EvPutThumb (loc : string)         (* the artifact is written *)
  | EvFetchComments (vid : string)    (* video.comments(count=50) *)
  | EvSleep                           (* jittered pacing delay *)
  | EvLongSleep                       (* asyncio.sleep(10) *)
  | EvGetData                         (* s3 get_object of the table *)
  | EvPutData.                        (* the table is written *)

#[global] Instance Event_eq_dec : EqDecision Event.
Proof. solve_decision. Defined.

(** Why a [async for video in ...] loop was left. *)
Inductive LoopExit :=
  | Exhausted        (* the generator stopped *)
  | BreakDeadline    (* time limit, S3 only *)
  | BreakCap         (* attempts >= REQUEST_CAP *)
  | BreakTarget      (* videos_processed >= VIDEOS_PER_TAG *)
  | Raised.          (* an exception reached the per-term handler *)

Definition row_ids (df : list Row) : list string := video_id <$> df.

(** [re.findall(r"#([A-Za-z0-9_]+)", txt)] as a scanner: [cur] is the tag
    being read (reversed), if the previous characters were [#] and word
    characters. *)
Definition is_word (a : ascii) : bool :=
  let n := nat_of_ascii a in
  ((65 <=? n) && (n <=? 90) || (97 <=? n) && (n <=? 122)
   || (48 <=? n) && (n <=? 57) || (n =? 95))%nat.

Definition flush_tag (cur : option string) : list string :=
  match cur with
  | Some (String a t) => [String.rev (String a t)]
  | _ => []
  end.

Fixpoint scan_hashtags (cur : option string) (txt : string) : list string :=
  match txt with
  | EmptyString => flush_tag cur
  | String a rest =>
      match cur with
      | Some t =>
          if is_word a then scan_hashtags (Some (String a t)) rest
          else flush_tag cur ++
               scan_hashtags (if Ascii.eqb a "#" then Some EmptyString else None) rest
      | None =>
          scan_hashtags (if Ascii.eqb a "#" then Some EmptyString else None) rest
      end
  end.

Definition extract_hashtags (txt : string) : list string := scan_hashtags None txt.

(** ** Dataset Merger *)

Module Merger.

(** [set(existing_df['video_id'].values)] *)
Definition existing_video_ids (existing_df : list Row) : gset string :=
  list_to_set (row_ids existing_df).

(** [new_df[~new_df['video_id'].isin(existing_video_ids)]] *)
Definition not_isin (ids : gset string) (new_df : list Row) : list Row :=
  filter (λ r, video_id r ∉ ids) new_df.

(** The tail of [main] in the local collector ([if rows: ... else: ...]):
    the Parquet file before ([None]: it does not exist) and after. *)
Definition persist_local (rows : list Row) (file : option (list Row))
    : option (list Row) :=
  match rows with
  | [] => file
  | _ :: _ =>
      match file with
      | Some existing_df =>
          let new_df := not_isin (existing_video_ids existing_df) rows in
          if bool_decide (0 < length new_df)%nat
          then Some (existing_df ++ new_df)
          else file
      | None => Some rows
      end
  end.

(** How [s3_client.get_object] behaves for one call. *)
Inductive GetOutcome :=
  | GetAnswers        (* the object, or ClientError NoSuchKey if there is none *)
  | GetClientError    (* another ClientError *)
  | GetRaises.        (* any other exception *)

(** The S3 side of one [save_batch_to_s3] call. *)
Record S3Call := mkS3Call {
  get_outcome : GetOutcome;
  put_succeeds : bool       (* to_parquet and put_object both succeed *)
}.

(** [load_existing_parquet_from_s3()]: [None] when an exception escapes,
    otherwise the returned Optional. *)
Definition load_existing_parquet_from_s3 (o : GetOutcome)
    (object : option (list Row)) : option (option (list Row)) :=
  match o with
  | GetAnswers => Some object
  | GetClientError => Some None
  | GetRaises => None
  end.

(** [save_parquet_to_s3(df)]: the stored object afterwards and the flag. *)
Definition save_parquet_to_s3 (ok : bool) (df : list Row)
    (object : option (list Row)) : option (list Row) * bool :=
  if ok then (Some df, true) else (object, false).

(** The result of [save_batch_to_s3]: the stored table afterwards, the
    returned count and whether [put_object] went through. *)
Record Saved := mkSaved {
  object_after : option (list Row);
  returned : nat;
  written : bool
}.

(** [save_batch_to_s3(rows, batch_number)].  With an empty [rows] and an
    existing table, [pd.DataFrame([])] has no [video_id] column, the lookup
    raises [KeyError] and the outer handler returns 0.  A stored table is
    taken to have its columns, also when it has no rows. *)
Definition save_batch_to_s3 (c : S3Call) (rows : list Row)
    (object : option (list Row)) : Saved :=
  match load_existing_parquet_from_s3 (get_outcome c) object with
  | None => mkSaved object 0 false
  | Some (Some existing_df) =>
      match rows with
      | [] => mkSaved object 0 false
      | _ :: _ =>
          let new_df := not_isin (existing_video_ids existing_df) rows in
          if bool_decide (0 < length new_df)%nat then
            let combined_df := existing_df ++ new_df in
            match save_parquet_to_s3 (put_succeeds c) combined_df object with
            | (object', true) => mkSaved object' (length combined_df) true
            | (object', false) => mkSaved object' (length existing_df) false
            end
          else mkSaved object (length existing_df) false
      end
  | Some None =>
      match save_parquet_to_s3 (put_succeeds c) rows object with
      | (object', true) => mkSaved object' (length rows) true
      | (object', false) => mkSaved object' 0 false
      end
  end.

End Merger.

(** ** State of the file-based collectors

    What [main] mutates in the legacy and in the local collector: [rows],
    [attempts], the thumbnail directory, and the calls made so far (oldest
    first). *)
Record State := mkState {
  rows : list Row;
  attempts : Z;
  thumbs : gmap string string;
  trace : list Event
}.

Definition log (e : Event) (st : State) : State :=
  mkState (rows st) (attempts st) (thumbs st) (trace st ++ [e]).

Definition incr_attempts (st : State) : State :=
  mkState (rows st) (attempts st + 1) (thumbs st) (trace st).

Definition write_thumb (loc jpeg : string) (st : State) : State :=
  mkState (rows st) (attempts st) (<[loc := jpeg]> (thumbs st)) (trace st).

Definition append_row (r : Row) (st : State) : State :=
  mkState (rows st ++ [r]) (attempts st) (thumbs st) (trace st).

(** [THUMBS_DIR / f"{video.id}.jpg"] *)
Definition thumb_path (vid : string) : string :=
  "tiktok_data/thumbnails/" +:+ vid +:+ ".jpg".
Arguments thumb_path : simpl never.

Definition set_thumbnail (loc : string) (r : Row) : Row :=
  mkRow (video_id r) (posted_ts r) (description r) (hashtags r) (author_id r)
        (author_name r) (follower_count r) (view_count r) (like_count r)
        (share_count r) (comment_count r) (repost_count r) loc (top_comments r).

Definition set_top_comments (tc : list string) (r : Row) : Row :=
  mkRow (video_id r) (posted_ts r) (description r) (hashtags r) (author_id r)
        (author_name r) (follower_count r) (view_count r) (like_count r)
        (share_count r) (comment_count r) (repost_count r) (thumbnail r) tc.

Definition initial (dir : gmap string string) : State := mkState [] 0 dir [].

(** How one turn of the loop body ends. *)
Inductive BodyResult :=
  | Continue (st : State)     (* [continue] *)
  | Appended (st : State)     (* [rows.append(row)] was reached *)
  | Raises (st : State).      (* an exception left the loop *)

(** ** The local collector, [src/src/tiktok_data_collect.py] *)

Module Local.

(** The tweakables and the cutoff computed when the script starts. *)
Record Config := mkConfig {
  VIDEOS_PER_TAG : Z;
  REQUEST_CAP : Z;
  ONE_YEAR_AGO : Z
}.

(** The dict literal [row = {...}]; a missing key raises ([None]).  The two
    columns assigned later start empty. *)
Definition build_row (v : Video) : option Row :=
  d ← desc v;
  fc ← authorStats_followerCount v;
  pc ← playCount (stats v);
  dc ← diggCount (stats v);
  sc ← shareCount (stats v);
  cc ← commentCount (stats v);
  Some (mkRow (id v) (create_time v) d None (user_id v) (username v)
              fc pc dc sc cc None "" []).

(** The outcome of the [# Thumbnail] block. *)
Inductive ThumbStep :=
  | ThumbDone (st : State)        (* falls through to the next statement *)
  | ThumbContinue (st : State).   (* the handler ran [continue] *)

(** [if not thumb_path.exists(): try: ... except Exception: ... continue] *)
Definition thumbnail_step `{!MediaNormalizer} (p : Pulled) (st : State) : ThumbStep :=
  let path := thumb_path (id (video p)) in
  match thumbs st !! path with
  | Some _ => ThumbDone st
  | None =>
      match cover (video p) with
      | None => ThumbContinue st
      | Some cover_url =>
          let st1 := log (EvHttpGet (id (video p)) cover_url) st in
          match cover_response p with
          | HttpRaises => ThumbContinue st1
          | HttpResponse status_code content =>
              if bool_decide (status_code = 200) then
                let st2 := log (EvNormalize path) st1 in
                match normalize content with
                | None => ThumbContinue st2
                | Some jpeg => ThumbDone (write_thumb path jpeg (log (EvPutThumb path) st2))
                end
              else ThumbDone st1
          end
      end
  end.

(** [if int(stats.get('commentCount', 0)) > 0: ... else: ...] *)
Definition comments_step (p : Pulled) (st : State) : list string * State :=
  if bool_decide (0 < default 0 (commentCount (stats (video p)))) then
    (Ranker.fetch_top_comments (comment_stream p) 5,
     log (EvFetchComments (id (video p))) st)
  else ([], st).

(** [if video_timestamp < ONE_YEAR_AGO] *)
Definition too_old (cfg : Config) (v : Video) : bool :=
  bool_decide (create_time v < ONE_YEAR_AGO cfg).

(** The loop body from the timestamp filter to [rows.append(row)]. *)
Definition body `{!MediaNormalizer} (cfg : Config) (p : Pulled) (st : State)
    : BodyResult :=
  if too_old cfg (video p) then Continue st
  else
    match build_row (video p) with
    | None => Raises st
    | Some row =>
        match thumbnail_step p st with
        | ThumbContinue st1 => Continue st1
        | ThumbDone st1 =>
            let row1 := set_thumbnail (thumb_path (id (video p))) row in
            let '(tc, st2) := comments_step p st1 in
            Appended (append_row (set_top_comments tc row1) st2)
        end
    end.

(** [async for video in tag.videos(...)]: the generator yields, then the cap
    is tested, then [attempts] is incremented. *)
Fixpoint videos_loop `{!MediaNormalizer} (cfg : Config) (feed : list Pulled)
    (raises : bool) (videos_processed : Z) (st : State) : State * LoopExit :=
  match feed with
  | [] => (st, if raises then Raised else Exhausted)
  | p :: feed' =>
      let st0 := log (EvPull (id (video p))) st in
      if bool_decide (REQUEST_CAP cfg ≤ attempts st0) then (st0, BreakCap)
      else
        match body cfg p (incr_attempts st0) with
        | Continue st1 => videos_loop cfg feed' raises videos_processed st1
        | Raises st1 => (st1, Raised)
        | Appended st1 =>
            if bool_decide (VIDEOS_PER_TAG cfg ≤ videos_processed + 1)
            then (st1, BreakTarget)
            else
              let st2 := log EvSleep st1 in
              let st3 := if bool_decide (attempts st2 `mod` 20 = 0)
                         then log EvLongSleep st2 else st2 in
              videos_loop cfg feed' raises (videos_processed + 1) st3
        end
  end.

(** [for search_term in SEARCH_TERMS: try: ... except Exception: continue] *)
Fixpoint terms_loop `{!MediaNormalizer} (cfg : Config) (feeds : list (Feed Pulled))
    (st : State) : State :=
  match feeds with
  | [] => st
  | f :: feeds' =>
      match videos_loop cfg (items f) (feed_raises f) 0 st with
      | (st1, Raised) => terms_loop cfg feeds' st1
      | (st1, _) =>
          if bool_decide (REQUEST_CAP cfg ≤ attempts st1) then st1
          else terms_loop cfg feeds' st1
      end
  end.

(** [main()]: the state the loops end in and the Parquet file afterwards.
    Without an [msToken] nothing is collected. *)
Definition main `{!MediaNormalizer} (cfg : Config) (ms_token : option string)
    (feeds : list (Feed Pulled)) (dir : gmap string string)
    (file : option (list Row)) : State * option (list Row) :=
  match ms_token with
  | None | Some EmptyString => (initial dir, file)
  | Some _ =>
      let st := terms_loop cfg feeds (initial dir) in
      (st, Merger.persist_local (rows st) file)
  end.

End Local.

(** ** The legacy collector, [src/tiktok_data_collect.py] *)

Module Legacy.

Record Config := mkConfig {
  REQUEST_CAP : Z;
  TARGET_START : Z;
  TARGET_END : Z
}.

(** A value pulled from the feed with the comment page it will deliver: the
    [(c.stats["diggCount"], c.text)] tuples and whether reading the page
    raises somewhere. *)
Record Pulled := mkPulled {
  video : Video;
  comment_tuples : list (Z * string);
  comments_raise : bool
}.

(** The dict literal [row = {...}] of this collector. *)
Definition build_row (v : Video) : option Row :=
  d ← desc v;
  fc ← author_followerCount v;
  pc ← playCount (stats v);
  dc ← diggCount (stats v);
  sc ← shareCount (stats v);
  cc ← commentCount (stats v);
  Some (mkRow (id v) (create_time v) d (Some (extract_hashtags d)) (user_id v)
              (username v) fc pc dc sc cc None "" []).

(** [if not (TARGET_START <= video.create_time.timestamp() <= TARGET_END)] *)
Definition wrong_timestamp (cfg : Config) (v : Video) : bool :=
  negb (bool_decide (TARGET_START cfg ≤ create_time v)
        && bool_decide (create_time v ≤ TARGET_END cfg)).

(** The loop body from the timestamp filter to [rows.append(row)]. *)
Definition body `{!MediaNormalizer} (cfg : Config) (p : Pulled) (st : State)
    : BodyResult :=
  if wrong_timestamp cfg (video p) then Continue st
  else
    match build_row (video p) with
    | None => Raises st
    | Some row =>
        let path := thumb_path (id (video p)) in
        let thumb :=
          match thumbs st !! path with
          | Some _ => (st, true)
          | None =>
              match bytes_cover (video p) with
              | None => (st, false)
              | Some img_bytes =>
                  let st1 := log (EvNormalize path) st in
                  match normalize img_bytes with
                  | None => (st1, false)
                  | Some jpeg =>
                      (write_thumb path jpeg (log (EvPutThumb path) st1), true)
                  end
              end
          end in
        match thumb with
        | (st1, false) => Continue st1
        | (st1, true) =>
            let tc := Ranker.fetch_top_comments_legacy
                        (comment_tuples p) (comments_raise p) 5 in
            let st2 := log (EvFetchComments (id (video p))) st1 in
            Appended (append_row (set_top_comments tc (set_thumbnail path row)) st2)
        end
    end.

(** [async for video in tag.videos(count=VIDEOS_PER_TAG)] *)
Fixpoint videos_loop `{!MediaNormalizer} (cfg : Config) (feed : list Pulled)
    (raises : bool) (st : State) : State * LoopExit :=
  match feed with
  | [] => (st, if raises then Raised else Exhausted)
  | p :: feed' =>
      let st0 := log (EvPull (id (video p))) st in
      if bool_decide (REQUEST_CAP cfg ≤ attempts st0) then (st0, BreakCap)
      else
        match body cfg p (incr_attempts st0) with
        | Continue st1 => videos_loop cfg feed' raises st1
        | Raises st1 => (st1, Raised)
        | Appended st1 =>
            let st2 := log EvSleep st1 in
            let st3 := if bool_decide (attempts st2 `mod` 20 = 0)
                       then log EvLongSleep st2 else st2 in
            videos_loop cfg feed' raises st3
        end
  end.

(** [for search_term in SEARCH_TERMS: try: ... except Exception: continue] *)
Fixpoint terms_loop `{!MediaNormalizer} (cfg : Config) (feeds : list (Feed Pulled))
    (st : State) : State :=
  match feeds with
  | [] => st
  | f :: feeds' =>
      match videos_loop cfg (items f) (feed_raises f) st with
      | (st1, Raised) => terms_loop cfg feeds' st1
      | (st1, _) =>
          if bool_decide (REQUEST_CAP cfg ≤ attempts st1) then st1
          else terms_loop cfg feeds' st1
      end
  end.

(** [main()]: the final state and the rows written to the day's Parquet
    file, if any. *)
Definition main `{!MediaNormalizer} (cfg : Config) (ms_token : option string)
    (feeds : list (Feed Pulled)) (dir : gmap string string)
    : State * option (list Row) :=
  match ms_token with
  | None | Some EmptyString => (initial dir, None)
  | Some _ =>
      let st := terms_loop cfg feeds (initial dir) in
      (st, match rows st with [] => None | _ :: _ => Some (rows st) end)
  end.

End Legacy.

(** ** The Lambda collector, [src/src/tiktok_data_collect_s3.py] *)

Module S3.

(** The settings read from the environment when the module is loaded. *)
Record Config := mkConfig {
  VIDEOS_PER_TAG : Z;
  REQUEST_CAP : Z;
  BATCH_SIZE : Z;
  MAX_EXECUTION_TIME : Z
}.

(** A pulled value with what the clock and S3 answer while it is handled:
    [clock] is [time.time() - start_time] at the top of the loop body,
    [head_client_error] says that [head_object] fails with a [ClientError]
    other than 404, [thumb_put_succeeds] that the thumbnail upload goes
    through, and [batch_call] is how S3 behaves if a batch is flushed. *)
Record Pull := mkPull {
  pulled : Pulled;
  clock : Z;
  head_client_error : bool;
  thumb_put_succeeds : bool;
  batch_call : Merger.S3Call
}.

(** A search term: the clock reading before its feed is opened, and the feed. *)
Record Term := mkTerm {
  clock_at_start : Z;
  feed : Feed Pull
}.

(** What [collect_tiktok_data] mutates, the bucket contents (thumbnail
    objects and the table object) and the calls made so far. *)
Record State := mkState {
  rows : list Row;
  attempts : Z;
  total_processed : Z;
  batch_count : Z;
  elapsed_time : Z;
  thumbs : gmap string string;
  table : option (list Row);
  trace : list Event
}.

Definition log (e : Event) (st : State) : State :=
  mkState (rows st) (attempts st) (total_processed st) (batch_count st)
          (elapsed_time st) (thumbs st) (table st) (trace st ++ [e]).

Definition set_elapsed (t : Z) (st : State) : State :=
  mkState (rows st) (attempts st) (total_processed st) (batch_count st)
          t (thumbs st) (table st) (trace st).

Definition incr_attempts (st : State) : State :=
  mkState (rows st) (attempts st + 1) (total_processed st) (batch_count st)
          (elapsed_time st) (thumbs st) (table st) (trace st).

Definition write_thumb (key jpeg : string) (st : State) : State :=
  mkState (rows st) (attempts st) (total_processed st) (batch_count st)
          (elapsed_time st) (<[key := jpeg]> (thumbs st)) (table st) (trace st).

(** [rows.append(row); videos_processed += 1; total_processed += 1] *)
Definition append_row (r : Row) (st : State) : State :=
  mkState (rows st ++ [r]) (attempts st) (total_processed st + 1) (batch_count st)
          (elapsed_time st) (thumbs st) (table st) (trace st).

(** [f"{S3_THUMBNAILS_PREFIX}{video.id}.jpg"] *)
Definition thumbnail_s3_key (vid : string) : string :=
  "raw/thumbnails/" +:+ vid +:+ ".jpg".
Arguments thumbnail_s3_key : simpl never.

(** The dict literal [row = {...}]; the key of the thumbnail is part of it. *)
Definition build_row (v : Video) : option Row :=
  fc ← authorStats_followerCount v;
  d ← desc v;
  pc ← playCount (stats v);
  dc ← diggCount (stats v);
  sc ← shareCount (stats v);
  cc ← commentCount (stats v);
  rc ← repostCount (stats v);
  Some (mkRow (id v) (create_time v) d None (user_id v) (username v)
              fc pc dc sc cc (Some rc) (thumbnail_s3_key (id v)) []).

(** [check_s3_object_exists(s3_key)]: a 404 and any other [ClientError]
    both give [False]. *)
Definition check_s3_object_exists (client_error : bool)
    (bucket : gmap string string) (s3_key : string) : bool :=
  if client_error then false else bool_decide (is_Some (bucket !! s3_key)).

(** [resize_and_save_to_s3(img_bytes, s3_key)] *)
Definition resize_and_save_to_s3 `{!MediaNormalizer} (put_ok : bool)
    (img_bytes s3_key : string) (st : State) : State * bool :=
  let st1 := log (EvNormalize s3_key) st in
  match normalize img_bytes with
  | None => (st1, false)
  | Some jpeg =>
      let st2 := log (EvPutThumb s3_key) st1 in
      if put_ok then (write_thumb s3_key jpeg st2, true) else (st2, false)
  end.

(** The [# Handle thumbnail] block: the state, and [false] when one of its
    [continue] statements ran. *)
Definition thumbnail_step `{!MediaNormalizer} (p : Pull) (st : State) : State * bool :=
  let v := video (pulled p) in
  let key := thumbnail_s3_key (id v) in
  let st0 := log (EvHeadObject key) st in
  if check_s3_object_exists (head_client_error p) (thumbs st0) key then (st0, true)
  else
    match cover v with
    | None => (st0, false)
    | Some cover_url =>
        if bool_decide (cover_url = "") then (st0, false)
        else
          let st1 := log (EvHttpGet (id v) cover_url) st0 in
          match cover_response (pulled p) with
          | HttpRaises => (st1, false)
          | HttpResponse status_code content =>
              if bool_decide (status_code = 200)
              then resize_and_save_to_s3 (thumb_put_succeeds p) content key st1
              else (st1, false)
          end
    end.

(** [if int(stats.get('commentCount', 0)) > 0: ... else: ...] *)
Definition comments_step (p : Pull) (st : State) : list string * State :=
  let v := video (pulled p) in
  if bool_decide (0 < default 0 (commentCount (stats v))) then
    (Ranker.fetch_top_comments (comment_stream (pulled p)) 5,
     log (EvFetchComments (id v)) st)
  else ([], st).

(** One [save_batch_to_s3(rows, batch_count)] call against the bucket. *)
Definition flush (c : Merger.S3Call) (st : State) : State :=
  let r := Merger.save_batch_to_s3 c (rows st) (table st) in
  let events := EvGetData :: (if Merger.written r then [EvPutData] else []) in
  mkState (rows st) (attempts st) (total_processed st) (batch_count st)
          (elapsed_time st) (thumbs st) (Merger.object_after r)
          (trace st ++ events).

(** [batch_count += 1; save_batch_to_s3(rows, batch_count)] *)
Definition save_batch (c : Merger.S3Call) (st : State) : State :=
  let st1 := mkState (rows st) (attempts st) (total_processed st)
                     (batch_count st + 1) (elapsed_time st) (thumbs st)
                     (table st) (trace st) in
  flush c st1.

(** [rows = []] *)
Definition clear_rows (st : State) : State :=
  mkState [] (attempts st) (total_processed st) (batch_count st)
          (elapsed_time st) (thumbs st) (table st) (trace st).

(** How one turn of the loop body ends. *)
Inductive BodyResult :=
  | Continue (st : State)
  | Appended (st : State)
  | Raises (st : State).

(** The loop body from [# Basic metadata] to [rows.append(row)]. *)
Definition enrich `{!MediaNormalizer} (p : Pull) (st : State) : BodyResult :=
  match build_row (video (pulled p)) with
  | None => Raises st
  | Some row =>
      match thumbnail_step p st with
      | (st1, false) => Continue st1
      | (st1, true) =>
          let '(tc, st2) := comments_step p st1 in
          Appended (append_row (set_top_comments tc row) st2)
      end
  end.

(** [if len(rows) >= BATCH_SIZE: ...; rows = []] *)
Definition save_batch_if_needed (cfg : Config) (c : Merger.S3Call) (st : State)
    : State :=
  if bool_decide (BATCH_SIZE cfg ≤ Z.of_nat (length (rows st)))
  then clear_rows (save_batch c st)
  else st.

(** The whole loop body after [attempts += 1], up to the batch flush. *)
Definition body `{!MediaNormalizer} (cfg : Config) (p : Pull) (st : State)
    : BodyResult :=
  match enrich p st with
  | Appended st3 => Appended (save_batch_if_needed cfg (batch_call p) st3)
  | r => r
  end.

(** [async for video in tag.videos(count=VIDEOS_PER_TAG * 2)] *)
Fixpoint videos_loop `{!MediaNormalizer} (cfg : Config) (items : list Pull)
    (raises : bool) (videos_processed : Z) (st : State) : State * LoopExit :=
  match items with
  | [] => (st, if raises then Raised else Exhausted)
  | p :: items' =>
      let st0 := set_elapsed (clock p) (log (EvPull (id (video (pulled p)))) st) in
      if bool_decide (MAX_EXECUTION_TIME cfg < elapsed_time st0)
      then (st0, BreakDeadline)
      else if bool_decide (REQUEST_CAP cfg ≤ attempts st0) then (st0, BreakCap)
      else
        match body cfg p (incr_attempts st0) with
        | Continue st1 => videos_loop cfg items' raises videos_processed st1
        | Raises st1 => (st1, Raised)
        | Appended st1 =>
            if bool_decide (VIDEOS_PER_TAG cfg ≤ videos_processed + 1)
            then (st1, BreakTarget)
            else videos_loop cfg items' raises (videos_processed + 1) (log EvSleep st1)
        end
  end.

(** [for search_term in SEARCH_TERMS: ...] *)
Fixpoint terms_loop `{!MediaNormalizer} (cfg : Config) (terms : list Term)
    (st : State) : State :=
  match terms with
  | [] => st
  | t :: terms' =>
      let st0 := set_elapsed (clock_at_start t) st in
      if bool_decide (MAX_EXECUTION_TIME cfg < elapsed_time st0) then st0
      else
        match videos_loop cfg (items (feed t)) (feed_raises (feed t)) 0 st0 with
        | (st1, Raised) => terms_loop cfg terms' st1
        | (st1, _) =>
            if bool_decide (REQUEST_CAP cfg ≤ attempts st1)
               || bool_decide (MAX_EXECUTION_TIME cfg < elapsed_time st1)
            then st1
            else terms_loop cfg terms' st1
        end
  end.

Definition initial (bucket : gmap string string) (tbl : option (list Row)) : State :=
  mkState [] 0 0 0 0 bucket tbl [].

(** [collect_tiktok_data(start_time)]: the status code of the returned dict
    and the final state.  [last_call] is how S3 behaves for the final flush. *)
Definition collect_tiktok_data `{!MediaNormalizer} (cfg : Config)
    (ms_tokens : list string) (terms : list Term) (last_call : Merger.S3Call)
    (bucket : gmap string string) (tbl : option (list Row)) : Z * State :=
  match ms_tokens with
  | [] => (400, initial bucket tbl)
  | _ :: _ =>
      let st := terms_loop cfg terms (initial bucket tbl) in
      (200, match rows st with
            | [] => st
            | _ :: _ => save_batch last_call st
            end)
  end.

End S3.

(** ** Credentials *)

Module Cookies.

(** [str.strip()], the builtin that removes leading and trailing white
    space. *)
Class Strip := strip : string → string.

(** The tab character. *)
Definition tab : ascii := "009"%char.

(** [line.split("\t")]: the fields between the tabs, at least one. *)
Fixpoint split_tab (line : string) : list string :=
  match line with
  | EmptyString => [EmptyString]
  | String a rest =>
      if Ascii.eqb a tab then EmptyString :: split_tab rest
      else
        match split_tab rest with
        | field :: fields => String a field :: fields
        | [] => [String a EmptyString]
        end
  end.

(** [line.startswith("#")] *)
Definition starts_with_hash (line : string) : bool :=
  match line with
  | String a _ => Ascii.eqb a "#"
  | EmptyString => false
  end.

(** What one turn of [for line in f] does. *)
Inductive LineResult :=
  | Skipped                          (* [continue], or fewer than 7 fields *)
  | Stored (name value : string)     (* [cookies[name] = value] *)
  | ValueError.                      (* too many values to unpack *)

(** The body of the loop: strip, skip blank lines and comments, split, and
    unpack exactly seven fields when there are at least seven. *)
Definition parse_line `{!Strip} (raw : string) : LineResult :=
  let line := strip raw in
  if bool_decide (line = "") || starts_with_hash line then Skipped
  else
    match split_tab line with
    | [domain; flag; path; secure; expiry; name; value] => Stored name value
    | parts => if bool_decide (7 ≤ length parts)%nat then ValueError else Skipped
    end.

(** The loop over the lines, from the dict built so far; [None] when the
    unpacking raises. *)
Fixpoint load_lines `{!Strip} (lines : list string) (cookies : gmap string string)
    : option (gmap string string) :=
  match lines with
  | [] => Some cookies
  | raw :: lines' =>
      match parse_line raw with
      | Skipped => load_lines lines' cookies
      | Stored name value => load_lines lines' (<[name := value]> cookies)
      | ValueError => None
      end
  end.

(** [load_cookies_txt(filepath)]: the file is given by its lines, [None]
    when it cannot be opened; the answer is [None] when an exception
    escapes. *)
Definition load_cookies_txt `{!Strip} (file : option (list string))
    : option (gmap string string) :=
  lines ← file; load_lines lines ∅.

End Cookies.

Module Env.

(** [f'MS_TOKEN_{i}'] *)
Definition token_key (i : nat) : string := "MS_TOKEN_" +:+ pretty i.

(** [if token:] for the answer of [os.environ.get]: a non-empty string. *)
Definition truthy (token : option string) : option string :=
  match token with
  | Some (String a rest) => Some (String a rest)
  | _ => None
  end.

(** The [while True] loop from index [i] on.  Every turn that does not
    [break] reads another variable of the environment, so the loop is run
    with one turn more than the environment has variables; [None] would
    mean that these turns do not suffice. *)
Fixpoint numbered_tokens (turns : nat) (environ : gmap string string) (i : nat)
    : option (list string) :=
  match turns with
  | O => None
  | S turns' =>
      match truthy (environ !! token_key i) with
      | Some token => (token ::.) <$> numbered_tokens turns' environ (S i)
      | None => Some []
      end
  end.

(** [load_cookies_from_env()] *)
Definition load_cookies_from_env (environ : gmap string string)
    : option (list string) :=
  ms_tokens ← numbered_tokens (S (size environ)) environ 1;
  Some (match ms_tokens with
        | [] =>
            match truthy (environ !! "MS_TOKEN") with
            | Some token => [token]
            | None => []
            end
        | _ :: _ => ms_tokens
        end).

End Env.

(** ** Entry points: the collectors with their credential lookup *)

Module Entry.

(** [main()] of the local collector from its first statement:
    [cookies = load_cookies_txt("cookies.txt")],
    [ms_token = cookies.get("msToken")].  [None] when reading the cookies
    raises. *)
Definition local_main `{!MediaNormalizer, !Cookies.Strip} (cfg : Local.Config)
    (cookies_txt : option (list string)) (feeds : list (Feed Pulled))
    (dir : gmap string string) (file : option (list Row))
    : option (State * option (list Row)) :=
  cookies ← Cookies.load_cookies_txt cookies_txt;
  Some (Local.main cfg (cookies !! "msToken") feeds dir file).

(** [main()] of the legacy collector from its first statement. *)
Definition legacy_main `{!MediaNormalizer, !Cookies.Strip} (cfg : Legacy.Config)
    (cookies_txt : option (list string)) (feeds : list (Feed Legacy.Pulled))
    (dir : gmap string string) : option (State * option (list Row)) :=
  cookies ← Cookies.load_cookies_txt cookies_txt;
  Some (Legacy.main cfg (cookies !! "msToken") feeds dir).

(** [lambda_handler(event, context)], that is [collect_tiktok_data] with
    the tokens it reads from the environment.  [sessions_raise] says that
    opening the API sessions raises, which the outermost handler turns into
    status 500. *)
Definition lambda_handler `{!MediaNormalizer} (cfg : S3.Config)
    (environ : gmap string string) (sessions_raise : bool)
    (terms : list S3.Term) (last_call : Merger.S3Call)
    (bucket : gmap string string) (tbl : option (list Row))
    : option (Z * S3.State) :=
  ms_tokens ← Env.load_cookies_from_env environ;
  Some (match ms_tokens with
        | [] => S3.collect_tiktok_data cfg ms_tokens terms last_call bucket tbl
        | _ :: _ =>
            if sessions_raise then (500, S3.initial bucket tbl)
            else S3.collect_tiktok_data cfg ms_tokens terms last_call bucket tbl
        end).

End Entry.

(** ** Notions used to state the properties *)

(** How often a kind of call occurs in a trace. *)
Definition calls (kind : Event → bool) (tr : list Event) : nat :=
  length (filter (λ e, kind e = true) tr).

Definition is_pull (e : Event) : bool :=
  match e with EvPull _ => true | _ => false end.
Definition is_http_get (e : Event) : bool :=
  match e with EvHttpGet _ _ => true | _ => false end.
Definition is_fetch_comments (e : Event) : bool :=
  match e with EvFetchComments _ => true | _ => false end.

(** The state a turn of the loop body ends in. *)
Definition state_of (r : BodyResult) : State :=
  match r with Continue st | Appended st | Raises st => st end.

Definition s3_state_of (r : S3.BodyResult) : S3.State :=
  match r with S3.Continue st | S3.Appended st | S3.Raises st => st end.

Definition appended (r : BodyResult) : bool :=
  match r with Appended _ => true | _ => false end.

Definition s3_appended (r : S3.BodyResult) : bool :=
  match r with S3.Appended _ => true | _ => false end.

(** The same state with other rows collected so far. *)
Definition with_rows (rs : list Row) (st : State) : State :=
  mkState rs (attempts st) (thumbs st) (trace st).

(** The same S3 state with other rows collected so far and another stored
    table. *)
Definition s3_with_rows (rs : list Row) (tbl : option (list Row)) (st : S3.State)
    : S3.State :=
  S3.mkState rs (S3.attempts st) (S3.total_processed st) (S3.batch_count st)
             (S3.elapsed_time st) (S3.thumbs st) tbl (S3.trace st).


(** The loop was left by the cap test. *)
Definition left_at_cap (ex : LoopExit) : bool :=
  match ex with BreakCap => true | _ => false end.

(** The set of video ids of a stored table; no table, no ids. *)
Definition table_ids (tbl : option (list Row)) : gset string :=
  from_option Merger.existing_video_ids ∅ tbl.


(** ** Sample values used in the examples below *)

Module Sample.

(** A row that carries nothing but its video id. *)
Definition row (vid : string) : Row :=
  mkRow vid 0 "" None "" "" 0 0 0 0 0 None "" [].

Definition existing_AB : list Row := [row "A"; row "B"].
Definition batch_ACCD : list Row := [row "A"; row "C"; row "C"; row "D"].

(** S3 answering normally. *)
Definition s3_ok : Merger.S3Call := Merger.mkS3Call Merger.GetAnswers true.

(** A stand-in normalizer: fails on the empty payload. *)
Definition normalizer : MediaNormalizer :=
  λ img, if decide (img = "") then None else Some ("jpeg:" +:+ img).

Definition stats_with (comments : Z) : Stats :=
  mkStats (Some 100) (Some 10) (Some 1) (Some comments) (Some 0).

Definition video_at (vid : string) (ts comments : Z) : Video :=
  mkVideo vid ts (Some "desc") "u1" "user" (Some 5) (Some 5)
          (stats_with comments) (Some ("https://cdn/" +:+ vid)) (Some "raw").

Definition page : Ranker.CommentStream :=
  Ranker.stream_of [(3, "nice"); (7, "wow")] false.

(** A candidate posted at [ts] whose cover request is answered by [resp]. *)
Definition candidate (vid : string) (ts comments : Z) (resp : HttpResult) : Pulled :=
  mkPulled (video_at vid ts comments) resp page.

Definition eligible (vid : string) : Pulled :=
  candidate vid 1000 2 (HttpResponse 200 "raw").

Definition s3_pull (p : Pulled) : S3.Pull :=
  S3.mkPull p 0 false true s3_ok.

Definition legacy_pull (vid : string) (ts : Z) : Legacy.Pulled :=
  Legacy.mkPulled (video_at vid ts 2) [(3, "nice"); (7, "wow")] false.

Definition ten_ids : list string :=
  ["v0"; "v1"; "v2"; "v3"; "v4"; "v5"; "v6"; "v7"; "v8"; "v9"].

End Sample.

(** ** Further notions and sample values *)

(** The number of tab characters of a line. *)
Fixpoint count_tabs (line : string) : nat :=
  match line with
  | EmptyString => 0
  | String a rest => (if Ascii.eqb a Cookies.tab then 1 else 0) + count_tabs rest
  end.

(** A line that is neither blank nor a comment. *)
Definition is_entry (line : string) : bool :=
  negb (bool_decide (line = "") || Cookies.starts_with_hash line).

(** The fields of a cookie line, written with tabs between them. *)
Fixpoint join_tab (fields : list string) : string :=
  match fields with
  | [] => ""
  | field :: fields' =>
      match fields' with
      | [] => field
      | _ :: _ => field +:+ String Cookies.tab (join_tab fields')
      end
  end.

(** Every character of a string is a word character. *)
Fixpoint all_word (tag : string) : bool :=
  match tag with
  | EmptyString => true
  | String a rest => is_word a && all_word rest
  end.

(** Tags written the way captions show them: [#tag ] one after another. *)
Fixpoint render_hashtags (tags : list string) : string :=
  match tags with
  | [] => ""
  | tag :: tags' => String "#" tag +:+ String " " (render_hashtags tags')
  end.

(** A string without the character [#]. *)
Fixpoint hash_free (txt : string) : bool :=
  match txt with
  | EmptyString => true
  | String a rest => negb (Ascii.eqb a "#") && hash_free rest
  end.

Module Demo.

(** White space handling good enough for the examples: nothing to strip. *)
Definition no_strip : Cookies.Strip := λ line, line.

Definition cookie_line (name value : string) : string :=
  join_tab [".tiktok.com"; "TRUE"; "/"; "TRUE"; "0"; name; value].

End Demo.

(** * Properties *)

(** ** The order on comment tuples *)

Section TupleOrder.
Import Ranker.

#[global] Instance tuple_le_refl : Reflexive tuple_le.
Proof. intros [z s]. right. done. Qed.

#[global] Instance tuple_le_trans : Transitive tuple_le.
Proof.
  intros [z1 s1] [z2 s2] [z3 s3]; unfold tuple_le; simpl.
  intros [H12 | [E12 L12]] [H23 | [E23 L23]].
  - left; lia.
  - left; lia.
  - left; lia.
  - right. split; [lia | by etrans].
Qed.

#[global] Instance tuple_le_antisym : AntiSymm (=) tuple_le.
Proof.
  intros [z1 s1] [z2 s2]; unfold tuple_le; simpl.
  intros [H12 | [E12 L12]] [H21 | [E21 L21]]; try lia.
  f_equal; [done | by apply (anti_symm String.le)].
Qed.

#[global] Instance tuple_le_total : Total tuple_le.
Proof.
  intros [z1 s1] [z2 s2]; unfold tuple_le; simpl.
  destruct (Z.lt_trichotomy z1 z2) as [? | [-> | ?]]; [by left; left | | by right; left].
  destruct (total String.le s1 s2); [left | right]; by right.
Qed.

#[global] Instance tuple_ge_trans : Transitive tuple_ge.
Proof. intros a b c Hab Hbc. unfold tuple_ge, flip in *. by etrans. Qed.

#[global] Instance tuple_ge_antisym : AntiSymm (=) tuple_ge.
Proof. intros a b Hab Hba. by apply (anti_symm tuple_le). Qed.

#[global] Instance tuple_ge_total : Total tuple_ge.
Proof. intros a b. unfold tuple_ge, flip. apply (total tuple_le). Qed.

Lemma tuple_ge_score a b : tuple_ge a b → b.1 ≤ a.1.
Proof. unfold tuple_ge, flip, tuple_le. lia. Qed.

Lemma tuple_ge_tie a b : tuple_ge a b → a.1 = b.1 → String.le b.2 a.2.
Proof. unfold tuple_ge, flip, tuple_le. intros [? | [_ ?]] ?; [lia | done]. Qed.

Lemma sort_reverse_perm l : sort_reverse l ≡ₚ l.
Proof. apply merge_sort_Permutation. Qed.

Lemma sort_reverse_sorted l : StronglySorted tuple_ge (sort_reverse l).
Proof. apply StronglySorted_merge_sort; apply _. Qed.

(** The descending arrangement is unique: whatever algorithm
    [list.sort] runs, this is its result. *)
Lemma sort_reverse_unique l l' :
  l' ≡ₚ l → StronglySorted tuple_ge l' → l' = sort_reverse l.
Proof.
  intros Hp Hs. apply (StronglySorted_unique tuple_ge); [done | apply sort_reverse_sorted |].
  by rewrite Hp, sort_reverse_perm.
Qed.

Lemma collected_stream_of ps raises : collected (stream_of ps raises) = ps.
Proof.
  unfold collected, stream_of; simpl.
  induction ps as [|[z s] ps IH]; csimpl; [done | by f_equal].
Qed.

Lemma StronglySorted_weaken {A} (R1 R2 : relation A) l :
  (∀ a b, R1 a b → R2 a b) → StronglySorted R1 l → StronglySorted R2 l.
Proof.
  intros HR. induction 1 as [|x l Hs IH Hx]; constructor; [done |].
  eapply Forall_impl; [exact Hx | auto].
Qed.

Lemma StronglySorted_lookup {A} (R : relation A) l i j a b :
  StronglySorted R l → (i < j)%nat → l !! i = Some a → l !! j = Some b → R a b.
Proof.
  intros Hs. revert i j. induction Hs as [|x l Hs IH Hx]; intros i j Hij Ha Hb.
  - by rewrite lookup_nil in Ha.
  - destruct j as [|j]; [lia |]. destruct i as [|i]; simpl in *.
    + injection Ha as <-. rewrite Forall_forall in Hx.
      apply Hx. by eapply list_elem_of_lookup_2.
    + apply (IH i j); [lia | done | done].
Qed.

Lemma fetch_top_comments_cons s n :
  collected s ≠ [] →
  fetch_top_comments s n = (take n (sort_reverse (collected s))).*2.
Proof. unfold fetch_top_comments. destruct (collected s); [done | by rewrite fmap_take]. Qed.

Lemma sort_reverse_nil : sort_reverse [] = [].
Proof. reflexivity. Qed.

(** Whatever was collected, the answer is the texts of the first [n]
    tuples of the descending arrangement. *)
Lemma fetch_top_comments_eq s n :
  fetch_top_comments s n = (take n (sort_reverse (collected s))).*2.
Proof.
  destruct (collected s) as [|c cs] eqn:E.
  - unfold fetch_top_comments. rewrite E, sort_reverse_nil. by rewrite take_nil.
  - rewrite <- E. apply fetch_top_comments_cons. by rewrite E.
Qed.
End TupleOrder.

(** C3: a page of [M] well-formed pairs and a target [K] give exactly
    [min M K] texts, they are the texts of pairs in descending score order
    (and no pair left out scores higher than a selected one), the legacy
    ranker agrees on a page that did not raise, and the empty page gives the
    empty list. *)
Theorem C3_ranker_length_and_order (ps : list (Z * string)) (raises : bool) (K : nat) :
  let out := Ranker.fetch_top_comments (Ranker.stream_of ps raises) K in
  length out = (length ps `min` K)%nat
  ∧ (∃ sel rest, sel ++ rest ≡ₚ ps ∧ out = sel.*2
       ∧ StronglySorted (λ a b, b.1 ≤ a.1) sel
       ∧ ∀ a b, a ∈ sel → b ∈ rest → b.1 ≤ a.1)
  ∧ Ranker.fetch_top_comments_legacy ps false K = out
  ∧ Ranker.fetch_top_comments (Ranker.stream_of [] raises) K = []
  ∧ Ranker.fetch_top_comments_legacy [] raises K = [].
Proof.
  intros out. subst out. rewrite fetch_top_comments_eq, collected_stream_of.
  pose proof (sort_reverse_perm ps) as Hp.
  pose proof (sort_reverse_sorted ps) as Hs.
  rewrite <- (take_drop K (Ranker.sort_reverse ps)) in Hp, Hs.
  apply StronglySorted_app in Hs as (Hcross & Hsel & _).
  split; [| split; [| split; [| split]]].
  - rewrite length_fmap, length_take, (Permutation_length (sort_reverse_perm ps)). lia.
  - exists (take K (Ranker.sort_reverse ps)), (drop K (Ranker.sort_reverse ps)).
    split; [done | split; [done | split]].
    + eapply StronglySorted_weaken; [apply tuple_ge_score | done].
    + intros a b Ha Hb. apply tuple_ge_score. by apply Hcross.
  - unfold Ranker.fetch_top_comments_legacy. by rewrite fmap_take.
  - reflexivity.
  - unfold Ranker.fetch_top_comments_legacy. destruct raises; [done |].
    by rewrite sort_reverse_nil, take_nil.
Qed.

(** C10: among the selected comments, equal scores are ordered by
    descending text (the tuples are sorted in reverse as a whole), and on
    the page [(1,"a"), (1,"b")] the answer is ["b", "a"], not the arrival
    order. *)
Theorem C10_ties_broken_by_descending_text :
  (∀ (s : Ranker.CommentStream) (n : nat),
     ∃ sel, Ranker.fetch_top_comments s n = sel.*2
       ∧ sel = take n (Ranker.sort_reverse (Ranker.collected s))
       ∧ StronglySorted Ranker.tuple_ge sel
       ∧ ∀ i j a b, (i < j)%nat → sel !! i = Some a → sel !! j = Some b →
           a.1 = b.1 → String.le b.2 a.2)
  ∧ (∀ (tuples : list (Z * string)) (n : nat) i j a b,
       (i < j)%nat →
       take n (Ranker.sort_reverse tuples) !! i = Some a →
       take n (Ranker.sort_reverse tuples) !! j = Some b →
       a.1 = b.1 → String.le b.2 a.2)
  ∧ Ranker.fetch_top_comments (Ranker.stream_of [(1, "a"); (1, "b")] false) 5
      = ["b"; "a"]
  ∧ Ranker.fetch_top_comments_legacy [(1, "a"); (1, "b")] false 5 = ["b"; "a"].
Proof.
  assert (Hord : ∀ (l : list (Z * string)) n i j a b, (i < j)%nat →
            take n (Ranker.sort_reverse l) !! i = Some a →
            take n (Ranker.sort_reverse l) !! j = Some b →
            a.1 = b.1 → String.le b.2 a.2).
  { intros l n i j a b Hij Ha Hb Hab.
    apply tuple_ge_tie; [| done].
    pose proof (sort_reverse_sorted l) as Hs.
    rewrite <- (take_drop n (Ranker.sort_reverse l)) in Hs.
    apply StronglySorted_app_1_l in Hs.
    by apply (StronglySorted_lookup _ (take n (Ranker.sort_reverse l)) i j). }
  split; [| split; [exact Hord | split; reflexivity]].
  intros s n. exists (take n (Ranker.sort_reverse (Ranker.collected s))).
  split; [apply fetch_top_comments_eq | split; [done | split]].
  - pose proof (sort_reverse_sorted (Ranker.collected s)) as Hs.
    rewrite <- (take_drop n (Ranker.sort_reverse (Ranker.collected s))) in Hs.
    by apply StronglySorted_app_1_l in Hs.
  - apply Hord.
Qed.

(** ** Dataset Merger *)

Section MergerFacts.
Import Merger.

Lemma elem_of_existing_video_ids (df : list Row) (i : string) :
  i ∈ existing_video_ids df ↔ i ∈ row_ids df.
Proof. unfold existing_video_ids. apply elem_of_list_to_set. Qed.

Lemma elem_of_not_isin (ids : gset string) (new_df : list Row) (r : Row) :
  r ∈ not_isin ids new_df ↔ (video_id r ∉ ids) ∧ (r ∈ new_df).
Proof. unfold not_isin. apply (list_elem_of_filter (λ r, video_id r ∉ ids)). Qed.


Lemma existing_video_ids_nil : existing_video_ids [] = ∅.
Proof. reflexivity. Qed.

Lemma row_ids_app (l k : list Row) : row_ids (l ++ k) = row_ids l ++ row_ids k.
Proof. unfold row_ids. apply fmap_app. Qed.





Lemma combined_id_set existing_df rows :
  existing_video_ids (existing_df ++ not_isin (existing_video_ids existing_df) rows)
  = existing_video_ids existing_df ∪ existing_video_ids rows.
Proof.
  apply set_eq. intros i.
  rewrite elem_of_union, !elem_of_existing_video_ids, row_ids_app, elem_of_app.
  split; intros [Hi | Hi]; [by left | | by left |].
  - right. apply list_elem_of_fmap in Hi as (r & -> & Hr).
    apply list_elem_of_fmap_2. by apply elem_of_not_isin in Hr as [_ ?].
  - destruct (decide (i ∈ existing_video_ids existing_df)) as [Hin | Hn].
    + left. by apply elem_of_existing_video_ids.
    + right. apply list_elem_of_fmap in Hi as (r & -> & Hr).
      apply list_elem_of_fmap_2. by apply elem_of_not_isin.
Qed.
End MergerFacts.





(** What the two theorems above leave to the environment: when
    [get_object] fails with a [ClientError] other than [NoSuchKey], the
    loader answers [None] as if there were no table, and the merge stores
    the batch alone in place of the table. *)
Remark load_error_replaces_table (rows existing_df : list Row) :
  rows ≠ [] →
  Merger.object_after
    (Merger.save_batch_to_s3 (Merger.mkS3Call Merger.GetClientError true) rows
       (Some existing_df)) = Some rows.
Proof. by destruct rows. Qed.

(** ** Traces and call counts *)

Lemma calls_app kind tr1 tr2 : calls kind (tr1 ++ tr2) = (calls kind tr1 + calls kind tr2)%nat.
Proof. unfold calls. by rewrite filter_app, length_app. Qed.

Lemma calls_snoc kind tr e :
  calls kind (tr ++ [e]) = (calls kind tr + (if kind e then 1 else 0))%nat.
Proof.
  rewrite calls_app. f_equal. unfold calls. rewrite filter_cons, filter_nil.
  destruct (kind e); reflexivity.
Qed.

(** ** One turn of the local loop body *)

Section LocalBody.
Context `{!MediaNormalizer}.
Implicit Types (cfg : Local.Config) (p : Pulled) (st : State).

(** Case analysis along the branches of [Local.body]. *)
Ltac body_cases :=
  unfold Local.body, Local.thumbnail_step, Local.comments_step;
  repeat (case_match; simplify_eq/=); try done.

Lemma local_body_attempts cfg p st :
  attempts (state_of (Local.body cfg p st)) = attempts st.
Proof. body_cases. Qed.

Lemma local_body_calls kind cfg p st :
  kind (EvHttpGet (id (video p)) (default "" (cover (video p)))) = false →
  kind (EvNormalize (thumb_path (id (video p)))) = false →
  kind (EvPutThumb (thumb_path (id (video p)))) = false →
  kind (EvFetchComments (id (video p))) = false →
  calls kind (trace (state_of (Local.body cfg p st))) = calls kind (trace st).
Proof.
  intros H1 H2 H3 H4. body_cases;
    rewrite ?calls_snoc, ?H1, ?H2, ?H3, ?H4; simpl in *; rewrite ?H1; lia.
Qed.


Lemma local_body_rows cfg p st :
  match Local.body cfg p st with
  | Appended st' => ∃ r, rows st' = rows st ++ [r] ∧ video_id r = id (video p)
                         ∧ Local.build_row (video p) <> None
  | Continue st' | Raises st' => rows st' = rows st
  end.
Proof.
  unfold Local.body. destruct (Local.too_old _ _); [done |].
  destruct (Local.build_row (video p)) as [row |] eqn:Hrow; [| done].
  assert (video_id row = id (video p)) as Hid.
  { unfold Local.build_row in Hrow. by simplify_option_eq. }
  unfold Local.thumbnail_step, Local.comments_step.
  repeat (case_match; simplify_eq/=); try done; eexists; split; try done.
Qed.
End LocalBody.

(** ** The attempt counter in the local collector *)

Section LocalCounter.
Context `{!MediaNormalizer}.
Implicit Types (cfg : Local.Config) (p : Pulled) (st : State).

Lemma local_body_pulls cfg p st :
  calls is_pull (trace (state_of (Local.body cfg p st))) = calls is_pull (trace st).
Proof. by apply local_body_calls. Qed.

(** The four facts about one term's loop, by induction on the feed. *)
Lemma local_videos_loop_counter cfg feed raises vp st :
  attempts st ≤ Local.REQUEST_CAP cfg →
  let r := Local.videos_loop cfg feed raises vp st in
  attempts st ≤ attempts r.1 ≤ Local.REQUEST_CAP cfg
  ∧ (r.2 = BreakCap → attempts r.1 = Local.REQUEST_CAP cfg)
  ∧ Z.of_nat (calls is_pull (trace r.1))
    = Z.of_nat (calls is_pull (trace st)) + (attempts r.1 - attempts st)
      + (if left_at_cap r.2 then 1 else 0)
  ∧ (Local.REQUEST_CAP cfg - attempts st ≤ Z.of_nat (length feed) →
     r.2 ≠ Raised → r.2 ≠ BreakTarget → attempts r.1 = Local.REQUEST_CAP cfg).
Proof.
  revert vp st. induction feed as [|p feed IH]; intros vp st Hcap; simpl.
  { split; [lia |]. split; [by destruct raises |]. split; [destruct raises; simpl; lia |].
    intros Hlen _ _. simpl in Hlen. lia. }
  case_bool_decide as Hle; simpl in Hle.
  { simpl. rewrite calls_snoc; simpl. split; [lia |]. split; [lia |]. split; lia. }
  set (s0 := incr_attempts (log (EvPull (id (video p))) st)).
  pose proof (local_body_attempts cfg p s0) as Ha.
  pose proof (local_body_pulls cfg p s0) as Hp.
  assert (attempts s0 = attempts st + 1) as Hs0 by done.
  assert (calls is_pull (trace s0) = S (calls is_pull (trace st))) as Hp0.
  { simpl. rewrite calls_snoc; simpl. lia. }
  rewrite Hs0 in Ha. rewrite Hp0 in Hp. clearbody s0.
  destruct (Local.body cfg p s0) as [st1 | st1 | st1] eqn:Hbody; simpl in Ha, Hp.
  - specialize (IH vp st1). cbv zeta in IH.
    destruct IH as (I1 & I2 & I3 & I4); [lia |].
    split; [lia |]. split; [done |]. split; [lia |].
    intros Hlen ? ?. apply I4; [| done | done].
    lia.
  - case_bool_decide as Htarget; simpl.
    { split; [lia |]. split; [done |]. split; [lia | done]. }
    set (st2 := log EvSleep st1).
    set (st3 := if bool_decide (attempts st1 `mod` 20 = 0) then log EvLongSleep st2 else st2).
    assert (attempts st3 = attempts st1) as Ha3 by (subst st3; by case_bool_decide).
    assert (calls is_pull (trace st3) = calls is_pull (trace st1)) as Hp3.
    { subst st3 st2. case_bool_decide; simpl; rewrite ?calls_snoc; simpl; lia. }
    specialize (IH (vp + 1) st3). cbv zeta in IH.
    destruct IH as (I1 & I2 & I3 & I4); [lia |].
    split; [lia |]. split; [done |]. split; [lia |].
    intros Hlen ? ?. apply I4; [| done | done].
    lia.
  - simpl. split; [lia |]. split; [done |]. split; [lia | done].
Qed.

(** Over all search terms the counter stays within the cap. *)
Lemma local_terms_loop_counter cfg feeds st :
  attempts st ≤ Local.REQUEST_CAP cfg →
  attempts st ≤ attempts (Local.terms_loop cfg feeds st) ≤ Local.REQUEST_CAP cfg.
Proof.
  revert st. induction feeds as [|f feeds IH]; intros st Hcap; simpl; [lia |].
  pose proof (local_videos_loop_counter cfg (items f) (feed_raises f) 0 st Hcap) as Hloop.
  cbv zeta in Hloop. destruct Hloop as (H1 & _).
  destruct (Local.videos_loop cfg (items f) (feed_raises f) 0 st) as [st1 ex]; simpl in H1.
  assert (attempts st ≤ attempts (Local.terms_loop cfg feeds st1) ≤ Local.REQUEST_CAP cfg).
  { specialize (IH st1). lia. }
  destruct ex; try done; case_bool_decide; lia.
Qed.
End LocalCounter.

(** ** The attempt counter in the legacy collector *)

Section LegacyCounter.
Context `{!MediaNormalizer}.
Implicit Types (cfg : Legacy.Config) (p : Legacy.Pulled) (st : State).

Ltac legacy_body_cases :=
  unfold Legacy.body; repeat (case_match; simplify_eq/=); try done.

Lemma legacy_body_attempts cfg p st :
  attempts (state_of (Legacy.body cfg p st)) = attempts st.
Proof. legacy_body_cases. Qed.

Lemma legacy_body_pulls cfg p st :
  calls is_pull (trace (state_of (Legacy.body cfg p st))) = calls is_pull (trace st).
Proof. legacy_body_cases; rewrite ?calls_snoc; simpl; rewrite ?calls_snoc; simpl; lia. Qed.

Lemma legacy_videos_loop_counter cfg feed raises st :
  attempts st ≤ Legacy.REQUEST_CAP cfg →
  let r := Legacy.videos_loop cfg feed raises st in
  attempts st ≤ attempts r.1 ≤ Legacy.REQUEST_CAP cfg
  ∧ (r.2 = BreakCap → attempts r.1 = Legacy.REQUEST_CAP cfg)
  ∧ Z.of_nat (calls is_pull (trace r.1))
    = Z.of_nat (calls is_pull (trace st)) + (attempts r.1 - attempts st)
      + (if left_at_cap r.2 then 1 else 0)
  ∧ r.2 ≠ BreakTarget
  ∧ (Legacy.REQUEST_CAP cfg - attempts st ≤ Z.of_nat (length feed) →
     r.2 ≠ Raised → attempts r.1 = Legacy.REQUEST_CAP cfg).
Proof.
  revert st. induction feed as [|p feed IH]; intros st Hcap; simpl.
  { split; [lia |]. split; [by destruct raises |]. split; [destruct raises; simpl; lia |].
    split; [by destruct raises |]. intros Hlen _. simpl in Hlen. lia. }
  case_bool_decide as Hle; simpl in Hle.
  { simpl. rewrite calls_snoc; simpl. split; [lia |]. split; [lia |]. split; [lia |].
    split; [done | lia]. }
  set (s0 := incr_attempts (log (EvPull (id (Legacy.video p))) st)).
  pose proof (legacy_body_attempts cfg p s0) as Ha.
  pose proof (legacy_body_pulls cfg p s0) as Hp.
  assert (attempts s0 = attempts st + 1) as Hs0 by done.
  assert (calls is_pull (trace s0) = S (calls is_pull (trace st))) as Hp0.
  { simpl. rewrite calls_snoc; simpl. lia. }
  rewrite Hs0 in Ha. rewrite Hp0 in Hp. clearbody s0.
  destruct (Legacy.body cfg p s0) as [st1 | st1 | st1] eqn:Hbody; simpl in Ha, Hp.
  - specialize (IH st1). cbv zeta in IH.
    destruct IH as (I1 & I2 & I3 & I4 & I5); [lia |].
    split; [lia |]. split; [done |]. split; [lia |]. split; [done |].
    intros Hlen ?. apply I5; [lia | done].
  - set (st2 := log EvSleep st1).
    set (st3 := if bool_decide (attempts st1 `mod` 20 = 0) then log EvLongSleep st2 else st2).
    assert (attempts st3 = attempts st1) as Ha3 by (subst st3; by case_bool_decide).
    assert (calls is_pull (trace st3) = calls is_pull (trace st1)) as Hp3.
    { subst st3 st2. case_bool_decide; simpl; rewrite ?calls_snoc; simpl; lia. }
    specialize (IH st3). cbv zeta in IH.
    destruct IH as (I1 & I2 & I3 & I4 & I5); [lia |].
    split; [lia |]. split; [done |]. split; [lia |]. split; [done |].
    intros Hlen ?. apply I5; [lia | done].
  - simpl. split; [lia |]. split; [done |]. split; [lia |]. split; done.
Qed.

Lemma legacy_terms_loop_counter cfg feeds st :
  attempts st ≤ Legacy.REQUEST_CAP cfg →
  attempts st ≤ attempts (Legacy.terms_loop cfg feeds st) ≤ Legacy.REQUEST_CAP cfg.
Proof.
  revert st. induction feeds as [|f feeds IH]; intros st Hcap; simpl; [lia |].
  pose proof (legacy_videos_loop_counter cfg (items f) (feed_raises f) st Hcap) as Hloop.
  cbv zeta in Hloop. destruct Hloop as (H1 & _).
  destruct (Legacy.videos_loop cfg (items f) (feed_raises f) st) as [st1 ex]; simpl in H1.
  assert (attempts st ≤ attempts (Legacy.terms_loop cfg feeds st1) ≤ Legacy.REQUEST_CAP cfg).
  { specialize (IH st1). lia. }
  destruct ex; try done; case_bool_decide; lia.
Qed.
End LegacyCounter.

(** C7, as stated, fails in the local collector: with a cap of 3, a
    per-term target of 1 and a feed of ten eligible candidates the walker
    stops after one attempt; and with a target of 5 it stops at three
    attempts after four candidates were pulled. *)
Lemma C7_target_stops_walker_before_cap :
  let feed := mkFeed (Sample.eligible <$> Sample.ten_ids) false in
  let st1 := @Local.terms_loop Sample.normalizer (Local.mkConfig 1 3 0) [feed] (initial ∅) in
  let st5 := @Local.terms_loop Sample.normalizer (Local.mkConfig 5 3 0) [feed] (initial ∅) in
  length (items feed) = 10%nat
  ∧ attempts st1 = 1 ∧ calls is_pull (trace st1) = 1%nat ∧ row_ids (rows st1) = ["v0"]
  ∧ attempts st5 = 3 ∧ calls is_pull (trace st5) = 4%nat.
Proof. vm_compute. repeat split. Qed.

(** C7, amended: the counter goes up by one for every candidate that
    enters the loop body, whatever becomes of it, and never exceeds the cap,
    in one term's loop and over all terms; the candidates pulled are those
    counted plus the one discarded when the loop is left by the cap test; a
    loop left by the cap test ends at exactly the cap; and a feed with at
    least as many candidates as remain under the cap ends at exactly the cap
    unless an exception escapes or, in the local collector, the per-term
    target is reached first. *)
Theorem C7_attempt_counter `{!MediaNormalizer}
    (cfg : Local.Config) (lcfg : Legacy.Config)
    (p : Pulled) (lp : Legacy.Pulled)
    (feed : list Pulled) (lfeed : list Legacy.Pulled)
    (feeds : list (Feed Pulled)) (lfeeds : list (Feed Legacy.Pulled))
    (raises lraises : bool) (videos_processed : Z) (st : State) :
  attempts st ≤ Local.REQUEST_CAP cfg →
  attempts st ≤ Legacy.REQUEST_CAP lcfg →
  let r := Local.videos_loop cfg feed raises videos_processed st in
  let l := Legacy.videos_loop lcfg lfeed lraises st in
  (attempts (state_of (Local.body cfg p (incr_attempts st))) = attempts st + 1
   ∧ attempts (state_of (Legacy.body lcfg lp (incr_attempts st))) = attempts st + 1)
  ∧ (attempts st ≤ attempts r.1 ≤ Local.REQUEST_CAP cfg
     ∧ attempts st ≤ attempts l.1 ≤ Legacy.REQUEST_CAP lcfg
     ∧ attempts (Local.terms_loop cfg feeds st) ≤ Local.REQUEST_CAP cfg
     ∧ attempts (Legacy.terms_loop lcfg lfeeds st) ≤ Legacy.REQUEST_CAP lcfg)
  ∧ (Z.of_nat (calls is_pull (trace r.1))
       = Z.of_nat (calls is_pull (trace st)) + (attempts r.1 - attempts st)
         + (if left_at_cap r.2 then 1 else 0)
     ∧ Z.of_nat (calls is_pull (trace l.1))
       = Z.of_nat (calls is_pull (trace st)) + (attempts l.1 - attempts st)
         + (if left_at_cap l.2 then 1 else 0))
  ∧ ((r.2 = BreakCap → attempts r.1 = Local.REQUEST_CAP cfg)
     ∧ (l.2 = BreakCap → attempts l.1 = Legacy.REQUEST_CAP lcfg))
  ∧ (Local.REQUEST_CAP cfg - attempts st ≤ Z.of_nat (length feed) →
     r.2 ≠ Raised → r.2 ≠ BreakTarget → attempts r.1 = Local.REQUEST_CAP cfg)
  ∧ (Legacy.REQUEST_CAP lcfg - attempts st ≤ Z.of_nat (length lfeed) →
     l.2 ≠ Raised → attempts l.1 = Legacy.REQUEST_CAP lcfg).
Proof.
  intros Hcap Hlcap r l.
  destruct (local_videos_loop_counter cfg feed raises videos_processed st Hcap)
    as (R1 & R2 & R3 & R4).
  destruct (legacy_videos_loop_counter lcfg lfeed lraises st Hlcap)
    as (L1 & L2 & L3 & _ & L5).
  pose proof (local_terms_loop_counter cfg feeds st Hcap) as T.
  pose proof (legacy_terms_loop_counter lcfg lfeeds st Hlcap) as LT.
  split; [split |].
  - by rewrite local_body_attempts.
  - by rewrite legacy_body_attempts.
  - split; [split; [done | split; [done | split; lia]] |].
    split; [by split |]. split; [by split |]. by split.
Qed.

(** The amended C7 on the legacy collector: cap 3, ten candidates inside
    the target day, none raising. *)
Lemma C7_attempt_counter_witness :
  let lfeed := (λ i, Sample.legacy_pull i 150) <$> Sample.ten_ids in
  attempts (initial ∅) ≤ 3
  ∧ attempts (@Legacy.videos_loop Sample.normalizer (Legacy.mkConfig 3 100 200)
                lfeed false (initial ∅)).1 = 3.
Proof.
  intros lfeed. split; [done |].
  refine (proj2 (proj2 (proj2 (proj2 (proj2
    (@C7_attempt_counter Sample.normalizer (Local.mkConfig 5 3 0)
       (Legacy.mkConfig 3 100 200) (Sample.eligible "v0")
       (Sample.legacy_pull "v0" 150) [] lfeed [] [] false false 0 (initial ∅) _ _))))) _ _).
  - done.
  - done.
  - by vm_compute.
  - by vm_compute.
Defined.

(** ** Recency filter *)

(** C9, as stated, fails in the legacy collector: with the target day
    [100, 200] a candidate posted at 300, which is not older than any cutoff
    of that day, is skipped for its timestamp. *)
Lemma C9_legacy_rejects_too_recent :
  let cfg := Legacy.mkConfig 3 100 200 in
  let p := Sample.legacy_pull "X" 300 in
  ¬ (create_time (Legacy.video p) < Legacy.TARGET_START cfg)
  ∧ ¬ (create_time (Legacy.video p) < Legacy.TARGET_END cfg)
  ∧ Legacy.wrong_timestamp cfg (Legacy.video p) = true
  ∧ @Legacy.body Sample.normalizer cfg p (initial ∅) = Continue (initial ∅).
Proof. vm_compute. repeat split; by intros ?. Qed.

(** C9, amended: in the local collector the recency test rejects a
    candidate exactly when its timestamp is strictly older than the cutoff,
    so a timestamp equal to the cutoff passes and nothing is rejected for
    being recent; a rejected candidate leaves the state as it was and one
    that passes is appended once its metadata is complete and its thumbnail
    is present.  In the legacy collector the test rejects exactly the
    timestamps outside the closed interval of the target day. *)
Theorem C9_recency_decision `{!MediaNormalizer}
    (cfg : Local.Config) (lcfg : Legacy.Config) (p : Pulled) (v : Video) (st : State) :
  (Local.too_old cfg v = true ↔ create_time v < Local.ONE_YEAR_AGO cfg)
  ∧ (create_time v = Local.ONE_YEAR_AGO cfg → Local.too_old cfg v = false)
  ∧ (Local.ONE_YEAR_AGO cfg ≤ create_time v → Local.too_old cfg v = false)
  ∧ (Local.too_old cfg (video p) = true → Local.body cfg p st = Continue st)
  ∧ (Local.too_old cfg (video p) = false →
     Local.build_row (video p) ≠ None →
     is_Some (thumbs st !! thumb_path (id (video p))) →
     appended (Local.body cfg p st) = true)
  ∧ (Legacy.wrong_timestamp lcfg v = true
     ↔ create_time v < Legacy.TARGET_START lcfg ∨ Legacy.TARGET_END lcfg < create_time v).
Proof.
  split; [| split; [| split; [| split; [| split]]]].
  - unfold Local.too_old. apply bool_decide_eq_true.
  - intros Heq. unfold Local.too_old. apply bool_decide_eq_false. lia.
  - intros Hle. unfold Local.too_old. apply bool_decide_eq_false. lia.
  - intros Hold. unfold Local.body. by rewrite Hold.
  - intros Hnew Hrow [jpeg Hthumb]. unfold Local.body, Local.thumbnail_step.
    rewrite Hnew, Hthumb. destruct (Local.build_row (video p)); [| done].
    by destruct (Local.comments_step p st).
  - unfold Legacy.wrong_timestamp. rewrite negb_true_iff, andb_false_iff.
    rewrite !bool_decide_eq_false. lia.
Qed.

(** ** Invariants of the local loops *)

Section LocalInvariant.
Context `{!MediaNormalizer}.
Variable P : State → Prop.
Variable cfg : Local.Config.
Hypothesis P_pull : ∀ st vid, P st → P (log (EvPull vid) st).
Hypothesis P_sleep : ∀ st, P st → P (log EvSleep st).
Hypothesis P_long_sleep : ∀ st, P st → P (log EvLongSleep st).
Hypothesis P_incr : ∀ st, P st → P (incr_attempts st).
Hypothesis P_body : ∀ p st, P st → P (state_of (Local.body cfg p st)).

(** What the loop statements around the body preserve and the body
    preserves, one term's loop preserves. *)
Lemma local_videos_loop_invariant feed raises vp st :
  P st → P (Local.videos_loop cfg feed raises vp st).1.
Proof.
  revert vp st. induction feed as [|p feed IH]; intros vp st HP; simpl.
  { by destruct raises. }
  case_bool_decide; simpl; [by apply P_pull |].
  pose proof (P_body p _ (P_incr _ (P_pull _ (id (video p)) HP))) as Hb.
  destruct (Local.body cfg p _) as [st1 | st1 | st1]; simpl in Hb.
  - by apply IH.
  - case_bool_decide; simpl; [done |]. apply IH.
    case_bool_decide; [apply P_long_sleep |]; by apply P_sleep.
  - done.
Qed.

Lemma local_terms_loop_invariant feeds st :
  P st → P (Local.terms_loop cfg feeds st).
Proof.
  revert st. induction feeds as [|f feeds IH]; intros st HP; simpl; [done |].
  pose proof (local_videos_loop_invariant (items f) (feed_raises f) 0 st HP) as Hl.
  destruct (Local.videos_loop cfg (items f) (feed_raises f) 0 st) as [st1 ex].
  simpl in Hl. destruct ex; try (case_bool_decide; [done |]); by apply IH.
Qed.
End LocalInvariant.

(** ** Thumbnails that are already there *)

Section Thumbnails.
Context `{!MediaNormalizer}.



Lemma s3_flush_calls kind cfg c st :
  kind EvGetData = false → kind EvPutData = false →
  calls kind (S3.trace (S3.save_batch_if_needed cfg c st)) = calls kind (S3.trace st).
Proof.
  intros Hg Hp. unfold S3.save_batch_if_needed. case_bool_decide; [| done].
  simpl. rewrite calls_app. unfold calls at 2.
  rewrite filter_cons, Hg. destruct (Merger.written _); simpl; [| done].
  by rewrite filter_cons, Hp.
Qed.


Lemma s3_body_state cfg p st :
  s3_state_of (S3.body cfg p st)
  = match S3.enrich p st with
    | S3.Appended st3 => S3.save_batch_if_needed cfg (S3.batch_call p) st3
    | r => s3_state_of r
    end.
Proof. unfold S3.body. by destruct (S3.enrich p st). Qed.

End Thumbnails.

Section Present.
Context `{!MediaNormalizer}.


End Present.


(** What the hypothesis on [head_object] excludes: when the call fails
    with a [ClientError] other than 404, the check answers [False] although
    the object is there, and the thumbnail is fetched and written again. *)
Remark head_error_refetches_thumbnail :
  let bucket : gmap string string := {[ S3.thumbnail_s3_key "X" := "old" ]} in
  let p := S3.mkPull (Sample.eligible "X") 0 true true Sample.s3_ok in
  let st' := s3_state_of (@S3.enrich Sample.normalizer p (S3.initial bucket None)) in
  calls is_http_get (S3.trace st') = 1%nat
  ∧ S3.thumbs st' !! S3.thumbnail_s3_key "X" = Some "jpeg:raw".
Proof. by vm_compute. Qed.


(** ** Comments of videos that report none *)

Section NoComments.
Context `{!MediaNormalizer}.

Lemma local_body_no_comments cfg p st :
  commentCount (stats (video p)) = Some 0 →
  calls is_fetch_comments (trace (state_of (Local.body cfg p st)))
  = calls is_fetch_comments (trace st)
  ∧ ∀ st', Local.body cfg p st = Appended st' →
      ∃ row, rows st' = rows st ++ [row] ∧ video_id row = id (video p)
             ∧ top_comments row = [].
Proof.
  intros Hcc. unfold Local.body, Local.comments_step. rewrite Hcc.
  destruct (Local.too_old _ _); [done |].
  destruct (Local.build_row (video p)) as [row |] eqn:Hrow; [| done].
  assert (video_id row = id (video p)) as Hid.
  { unfold Local.build_row in Hrow. by simplify_option_eq. }
  rewrite bool_decide_eq_false_2 by (simpl; lia).
  unfold Local.thumbnail_step.
  repeat (case_match; simplify_eq/=); rewrite ?calls_snoc; simpl;
    (split; [lia |]); intros ? ?; simplify_eq/=; eauto.
Qed.

Lemma s3_enrich_no_comments p st :
  commentCount (stats (video (S3.pulled p))) = Some 0 →
  calls is_fetch_comments (S3.trace (s3_state_of (S3.enrich p st)))
  = calls is_fetch_comments (S3.trace st)
  ∧ ∀ st', S3.enrich p st = S3.Appended st' →
      ∃ row, S3.rows st' = S3.rows st ++ [row]
             ∧ video_id row = id (video (S3.pulled p))
             ∧ top_comments row = [].
Proof.
  intros Hcc. unfold S3.enrich, S3.comments_step. rewrite Hcc.
  destruct (S3.build_row (video (S3.pulled p))) as [row |] eqn:Hrow; [| done].
  assert (video_id row = id (video (S3.pulled p))) as Hid.
  { unfold S3.build_row in Hrow. by simplify_option_eq. }
  rewrite bool_decide_eq_false_2 by (simpl; lia).
  unfold S3.thumbnail_step, S3.resize_and_save_to_s3.
  repeat (case_match; simplify_eq/=); rewrite ?calls_snoc; simpl;
    (split; [lia |]); intros ? ?; simplify_eq/=; eauto.
Qed.
End NoComments.

(** C5: for a pulled video whose statistics report a comment count of 0,
    one turn of the loop body makes no call to the comment feed, in the local
    and in the S3 collector, and if a row is appended, it is the row of that
    video with an empty list of top comments. *)
Theorem C5_no_comment_fetch_for_zero_count `{!MediaNormalizer}
    (cfg : Local.Config) (p : Pulled) (st : State)
    (scfg : S3.Config) (sp : S3.Pull) (sst : S3.State) :
  commentCount (stats (video p)) = Some 0 →
  commentCount (stats (video (S3.pulled sp))) = Some 0 →
  (calls is_fetch_comments (trace (state_of (Local.body cfg p st)))
   = calls is_fetch_comments (trace st)
   ∧ ∀ st', Local.body cfg p st = Appended st' →
       ∃ row, rows st' = rows st ++ [row] ∧ video_id row = id (video p)
              ∧ top_comments row = [])
  ∧ (calls is_fetch_comments (S3.trace (s3_state_of (S3.body scfg sp sst)))
     = calls is_fetch_comments (S3.trace sst)
     ∧ ∀ sst', S3.enrich sp sst = S3.Appended sst' →
         ∃ row, S3.rows sst' = S3.rows sst ++ [row]
                ∧ video_id row = id (video (S3.pulled sp))
                ∧ top_comments row = []).
Proof.
  intros Hcc Hscc. split; [by apply local_body_no_comments |].
  destruct (s3_enrich_no_comments sp sst Hscc) as [Hc Hrow]. split; [| done].
  rewrite s3_body_state.
  destruct (S3.enrich sp sst) as [s | s | s]; simpl in *; try done.
  by rewrite s3_flush_calls.
Qed.

(** C5 at an eligible candidate that reports no comments. *)
Lemma C5_no_comment_fetch_for_zero_count_witness :
  let p := Sample.candidate "X" 1000 0 (HttpResponse 200 "raw") in
  commentCount (stats (video p)) = Some 0
  ∧ calls is_fetch_comments
      (trace (state_of (@Local.body Sample.normalizer (Local.mkConfig 5 10 0) p (initial ∅))))
    = calls is_fetch_comments (trace (initial ∅)).
Proof.
  intros p. split; [reflexivity |].
  exact (proj1 (proj1
    (@C5_no_comment_fetch_for_zero_count Sample.normalizer (Local.mkConfig 5 10 0)
       p (initial ∅) (S3.mkConfig 5 10 25 840) (Sample.s3_pull p)
       (S3.initial ∅ None) eq_refl eq_refl))).
Defined.

(** ** No video id is looked up while collecting *)

(** C4, as stated, fails: with the table holding [X] and two search terms
    whose feeds both yield [X], the local collector enriches and appends [X]
    both times (the comment feed is called twice) and only the merge drops
    the rows; the S3 collector counts two processed videos and calls the
    comment feed twice as well. *)
Lemma C4_known_ids_are_processed_again :
  let feed := mkFeed [Sample.eligible "X"] false in
  let run := @Local.main Sample.normalizer (Local.mkConfig 5 10 0) (Some "token")
               [feed; feed] ∅ (Some [Sample.row "X"]) in
  let sfeed := mkFeed (Sample.s3_pull <$> items feed) false in
  let srun := @S3.collect_tiktok_data Sample.normalizer (S3.mkConfig 5 10 25 840)
                ["token"] [S3.mkTerm 0 sfeed; S3.mkTerm 1 sfeed] Sample.s3_ok ∅
                (Some [Sample.row "X"]) in
  row_ids (rows run.1) = ["X"; "X"]
  ∧ calls is_fetch_comments (trace run.1) = 2%nat
  ∧ run.2 = Some [Sample.row "X"]
  ∧ row_ids (S3.rows srun.2) = ["X"; "X"]
  ∧ S3.total_processed srun.2 = 2
  ∧ calls is_fetch_comments (S3.trace srun.2) = 2%nat
  ∧ S3.table srun.2 = Some [Sample.row "X"].
Proof. vm_compute. repeat split. Qed.

Section NoLookup.
Context `{!MediaNormalizer}.

Lemma local_body_ignores_rows cfg p st rs :
  appended (Local.body cfg p (with_rows rs st)) = appended (Local.body cfg p st).
Proof.
  unfold Local.body, Local.thumbnail_step, Local.comments_step, with_rows.
  repeat (case_match; simplify_eq/=); done.
Qed.

Lemma s3_enrich_ignores_rows p st rs tbl :
  s3_appended (S3.enrich p (s3_with_rows rs tbl st)) = s3_appended (S3.enrich p st).
Proof.
  unfold S3.enrich, S3.thumbnail_step, S3.resize_and_save_to_s3,
    S3.check_s3_object_exists, S3.comments_step, s3_with_rows.
  repeat (case_match; simplify_eq/=); done.
Qed.

Lemma s3_enrich_rows p st :
  match S3.enrich p st with
  | S3.Appended st' =>
      ∃ r, S3.rows st' = S3.rows st ++ [r] ∧ video_id r = id (video (S3.pulled p))
  | S3.Continue st' | S3.Raises st' =>
      S3.rows st' = S3.rows st ∧ S3.table st' = S3.table st
  end.
Proof.
  unfold S3.enrich.
  destruct (S3.build_row (video (S3.pulled p))) as [row |] eqn:Hrow; [| done].
  assert (video_id row = id (video (S3.pulled p))) as Hid.
  { unfold S3.build_row in Hrow. by simplify_option_eq. }
  unfold S3.thumbnail_step, S3.resize_and_save_to_s3, S3.comments_step.
  repeat (case_match; simplify_eq/=); try done; eexists; split; done.
Qed.
End NoLookup.

(** C4, amended: whether a candidate is appended does not depend on the
    rows collected so far in the run nor (in the S3 collector) on the stored
    table, so no video id is rejected for being known; an appended row is
    the row of the pulled video, added after whatever rows were there, also
    when they hold its id already.  Ids of the stored table are dropped at
    merge time, and only there: the rows a merge appends are the rows of the
    batch whose id is not in the stored table. *)
Theorem C4_no_id_is_rejected_while_collecting `{!MediaNormalizer}
    (cfg : Local.Config) (p : Pulled) (st : State)
    (sp : S3.Pull) (sst : S3.State)
    (rs : list Row) (tbl : option (list Row)) (existing_df new_df : list Row) :
  appended (Local.body cfg p (with_rows rs st)) = appended (Local.body cfg p st)
  ∧ s3_appended (S3.enrich sp (s3_with_rows rs tbl sst)) = s3_appended (S3.enrich sp sst)
  ∧ (∀ st', Local.body cfg p st = Appended st' →
       ∃ r, rows st' = rows st ++ [r] ∧ video_id r = id (video p))
  ∧ (∀ sst', S3.enrich sp sst = S3.Appended sst' →
       ∃ r, S3.rows sst' = S3.rows sst ++ [r] ∧ video_id r = id (video (S3.pulled sp)))
  ∧ (∀ r, r ∈ Merger.not_isin (Merger.existing_video_ids existing_df) new_df
          ↔ (video_id r ∉ row_ids existing_df) ∧ (r ∈ new_df)).
Proof.
  split; [apply local_body_ignores_rows |].
  split; [apply s3_enrich_ignores_rows |].
  split; [| split].
  - intros st' Hb. pose proof (local_body_rows cfg p st) as Hr. rewrite Hb in Hr.
    destruct Hr as (r & ? & ? & _). eauto.
  - intros sst' Hb. pose proof (s3_enrich_rows sp sst) as Hr. by rewrite Hb in Hr.
  - intros r. rewrite elem_of_not_isin. by rewrite elem_of_existing_video_ids.
Qed.

(** ** Failures of the thumbnail step *)

Section ThumbnailFailures.
Context `{!MediaNormalizer}.

(** The S3 collector drops the candidate on every failure of the step: no
    usable cover URL, a transport failure, a status other than 200, a
    payload the normalizer rejects, or an upload that fails.  Nothing is
    appended and neither the table nor the thumbnails change. *)
Lemma s3_thumbnail_failure_drops_candidate p st :
  S3.check_s3_object_exists (S3.head_client_error p) (S3.thumbs st)
    (S3.thumbnail_s3_key (id (video (S3.pulled p)))) = false →
  S3.build_row (video (S3.pulled p)) ≠ None →
  (cover (video (S3.pulled p)) = None
   ∨ cover (video (S3.pulled p)) = Some ""
   ∨ cover_response (S3.pulled p) = HttpRaises
   ∨ (∃ status_code content,
        cover_response (S3.pulled p) = HttpResponse status_code content
        ∧ (status_code ≠ 200 ∨ normalize content = None
           ∨ S3.thumb_put_succeeds p = false))) →
  ∃ st', S3.enrich p st = S3.Continue st'
    ∧ S3.rows st' = S3.rows st ∧ S3.table st' = S3.table st
    ∧ S3.thumbs st' = S3.thumbs st ∧ S3.attempts st' = S3.attempts st.
Proof.
  intros Habsent Hrow Hfail. unfold S3.enrich, S3.thumbnail_step.
  destruct (S3.build_row _); [| done]. cbn [S3.thumbs S3.log].
  rewrite Habsent. unfold S3.resize_and_save_to_s3.
  destruct Hfail as [-> | [-> | [Hf | (s & c & Hf & Hwhy)]]].
  - by eexists; split_and!.
  - rewrite bool_decide_eq_true_2 by done. by eexists; split_and!.
  - rewrite Hf. repeat (case_match; simplify_eq/=); by eexists; split_and!.
  - rewrite Hf. destruct Hwhy as [Hs | [Hn | Hp]].
    + rewrite (bool_decide_eq_false_2 _ Hs).
      repeat (case_match; simplify_eq/=); by eexists; split_and!.
    + rewrite Hn. repeat (case_match; simplify_eq/=); by eexists; split_and!.
    + rewrite Hp. repeat (case_match; simplify_eq/=); by eexists; split_and!.
Qed.

(** The local collector drops the candidate when the request raises or the
    payload cannot be normalized. *)
Lemma local_thumbnail_failure_drops_candidate cfg p st url :
  thumbs st !! thumb_path (id (video p)) = None →
  Local.too_old cfg (video p) = false →
  Local.build_row (video p) ≠ None →
  cover (video p) = Some url →
  (cover_response p = HttpRaises
   ∨ ∃ content, cover_response p = HttpResponse 200 content ∧ normalize content = None) →
  ∃ st', Local.body cfg p st = Continue st'
    ∧ rows st' = rows st ∧ thumbs st' = thumbs st ∧ attempts st' = attempts st.
Proof.
  intros Habsent Hnew Hrow Hurl Hfail. unfold Local.body, Local.thumbnail_step.
  rewrite Hnew, Habsent, Hurl. destruct (Local.build_row _); [| done].
  destruct Hfail as [-> | (c & -> & Hn)]; [by eexists; split_and! |].
  rewrite bool_decide_eq_true_2 by done. rewrite Hn. by eexists; split_and!.
Qed.

(** On a status other than 200 the local collector only prints a message:
    the row is appended although no artifact was stored. *)
Lemma local_failed_download_falls_through cfg p st url status_code content :
  thumbs st !! thumb_path (id (video p)) = None →
  Local.too_old cfg (video p) = false →
  Local.build_row (video p) ≠ None →
  cover (video p) = Some url →
  cover_response p = HttpResponse status_code content →
  status_code ≠ 200 →
  ∃ st' r, Local.body cfg p st = Appended st'
    ∧ rows st' = rows st ++ [r] ∧ video_id r = id (video p)
    ∧ thumbnail r = thumb_path (id (video p))
    ∧ thumbs st' = thumbs st
    ∧ thumbs st' !! thumbnail r = None.
Proof.
  intros Habsent Hnew Hrow Hurl Hresp Hstatus.
  unfold Local.body, Local.thumbnail_step.
  rewrite Hnew, Habsent, Hurl, Hresp. rewrite (bool_decide_eq_false_2 _ Hstatus).
  destruct (Local.build_row (video p)) as [row |] eqn:Hr; [| done].
  assert (video_id row = id (video p)) as Hid.
  { unfold Local.build_row in Hr. by simplify_option_eq. }
  unfold Local.comments_step. case_bool_decide; eexists _, _; split_and!; done.
Qed.
End ThumbnailFailures.

(** C8 at the failing input: a recent candidate [X] without a stored
    thumbnail whose cover request is answered with status 404.  The local
    collector appends the row of [X], with the path of a thumbnail that does
    not exist; the S3 collector, on the same candidate, continues with the
    next one and appends nothing. *)
Theorem C8_local_row_survives_failed_download :
  let p := Sample.candidate "X" 1000 0 (HttpResponse 404 "") in
  let r := @Local.body Sample.normalizer (Local.mkConfig 5 10 0) p (initial ∅) in
  let s := @S3.enrich Sample.normalizer (Sample.s3_pull p) (S3.initial ∅ None) in
  appended r = true
  ∧ row_ids (rows (state_of r)) = ["X"]
  ∧ thumbnail <$> rows (state_of r) = [thumb_path "X"]
  ∧ thumbs (state_of r) !! thumb_path "X" = None
  ∧ s3_appended s = false
  ∧ S3.rows (s3_state_of s) = [].
Proof. vm_compute. repeat split. Qed.

(** * Further properties of the code *)

(** ** Reading [cookies.txt] *)

Section CookieFile.
Context `{!Cookies.Strip}.
Import Cookies.

Lemma split_tab_length line : length (split_tab line) = S (count_tabs line).
Proof.
  induction line as [|a rest IH]; [done |]. simpl.
  destruct (Ascii.eqb a tab); simpl; [by rewrite IH |].
  destruct (split_tab rest); simpl in *; lia.
Qed.

Lemma parse_line_blank raw : is_entry (strip raw) = false → parse_line raw = Skipped.
Proof.
  unfold is_entry, parse_line. intros Hb. apply negb_false_iff in Hb. by rewrite Hb.
Qed.

Lemma parse_line_entry raw :
  is_entry (strip raw) = true →
  match parse_line raw with
  | Skipped => (count_tabs (strip raw) < 6)%nat
  | Stored name value =>
      count_tabs (strip raw) = 6%nat
      ∧ split_tab (strip raw) !! 5%nat = Some name
      ∧ split_tab (strip raw) !! 6%nat = Some value
  | ValueError => (6 < count_tabs (strip raw))%nat
  end.
Proof.
  unfold is_entry, parse_line. intros Hb. apply negb_true_iff in Hb. rewrite Hb.
  pose proof (split_tab_length (strip raw)) as Hlen.
  destruct (split_tab (strip raw)) as [|f1 [|f2 [|f3 [|f4 [|f5 [|f6 [|f7 [|f8 fs]]]]]]]];
    simpl in *; try case_bool_decide; try lia; try done.
  split; [lia | done].
Qed.
End CookieFile.

Section CookieLoad.
Context `{!Cookies.Strip}.
Import Cookies.

Lemma load_lines_raises lines acc :
  load_lines lines acc = None ↔ ∃ raw, raw ∈ lines ∧ parse_line raw = ValueError.
Proof.
  revert acc. induction lines as [|raw lines IH]; intros acc; simpl.
  { split; [done |]. intros (raw & Hin & _). by apply not_elem_of_nil in Hin. }
  destruct (parse_line raw) eqn:Hp.
  - rewrite IH. split; intros (r & Hin & Hr); exists r.
    + split; [by right | done].
    + apply elem_of_cons in Hin as [-> | Hin]; [congruence | done].
  - rewrite IH. split; intros (r & Hin & Hr); exists r.
    + split; [by right | done].
    + apply elem_of_cons in Hin as [-> | Hin]; [congruence | done].
  - split; [| done]. intros _. exists raw. split; [left | done].
Qed.

Lemma load_lines_untouched lines acc res name :
  load_lines lines acc = Some res →
  (∀ raw value, raw ∈ lines → parse_line raw ≠ Stored name value) →
  res !! name = acc !! name.
Proof.
  revert acc. induction lines as [|raw lines IH]; intros acc Hload Hno; simpl in Hload.
  { by simplify_eq. }
  assert (∀ r v, r ∈ lines → parse_line r ≠ Stored name v) as Hno'.
  { intros r v Hr. apply Hno. by right. }
  destruct (parse_line raw) as [| n v |] eqn:Hp; [by apply IH | | done].
  rewrite (IH _ Hload Hno'). apply lookup_insert_ne. intros ->.
  apply (Hno raw v); [left | done].
Qed.

Lemma load_lines_last lines pre raw post acc res name value :
  lines = pre ++ raw :: post →
  load_lines lines acc = Some res →
  parse_line raw = Stored name value →
  (∀ raw' value', raw' ∈ post → parse_line raw' ≠ Stored name value') →
  res !! name = Some value.
Proof.
  intros ->. revert acc. induction pre as [|r pre IH]; intros acc Hload Hraw Hpost; simpl in Hload.
  - rewrite Hraw in Hload. rewrite (load_lines_untouched _ _ _ _ Hload Hpost).
    apply lookup_insert_eq.
  - destruct (parse_line r); [by apply (IH acc) | by eapply IH | done].
Qed.

Lemma load_lines_stored lines acc res name :
  load_lines lines acc = Some res →
  (is_Some (acc !! name) ∨ ∃ raw value, raw ∈ lines ∧ parse_line raw = Stored name value) →
  is_Some (res !! name).
Proof.
  revert acc. induction lines as [|raw lines IH]; intros acc Hload Hsome; simpl in Hload.
  { simplify_eq. destruct Hsome as [? | (r & v & Hin & _)]; [done |].
    by apply not_elem_of_nil in Hin. }
  destruct (parse_line raw) as [| n v |] eqn:Hp; [| | done].
  - apply (IH acc Hload). destruct Hsome as [? | (r & v & Hin & Hr)]; [by left |].
    apply elem_of_cons in Hin as [-> | Hin]; [congruence | right; eauto].
  - apply (IH _ Hload). destruct Hsome as [Hs | (r & v' & Hin & Hr)].
    + left. destruct (decide (n = name)) as [-> | Hne].
      * rewrite lookup_insert_eq. eauto.
      * by rewrite lookup_insert_ne.
    + apply elem_of_cons in Hin as [-> | Hin]; [| right; eauto].
      left. rewrite Hp in Hr. simplify_eq. rewrite lookup_insert_eq. eauto.
Qed.
Lemma load_lines_stored_inv lines acc res name :
  load_lines lines acc = Some res →
  is_Some (res !! name) →
  is_Some (acc !! name) ∨ ∃ raw value, raw ∈ lines ∧ parse_line raw = Stored name value.
Proof.
  revert acc. induction lines as [|raw lines IH]; intros acc Hload Hsome; simpl in Hload.
  { simplify_eq. by left. }
  destruct (parse_line raw) as [| n v |] eqn:Hp; [| | done].
  - destruct (IH acc Hload Hsome) as [? | (r & v & Hin & Hr)]; [by left |].
    right. exists r, v. split; [by right | done].
  - destruct (IH _ Hload Hsome) as [Hs | (r & v' & Hin & Hr)].
    + destruct (decide (n = name)) as [-> | Hne].
      * right. exists raw, v. split; [left | done].
      * left. by rewrite lookup_insert_ne in Hs.
    + right. exists r, v'. split; [by right | done].
Qed.
End CookieLoad.


(** X2: in the dict read from the cookie file a name is present exactly
    when some line stores it, its value is that of the last such line, and
    the lines that store something are the lines with exactly seven fields
    that are neither blank nor comments, the sixth field being the name and
    the seventh the value. *)
Theorem cookie_file_last_entry_wins `{!Cookies.Strip}
    (lines : list string) (cookies : gmap string string) :
  Cookies.load_cookies_txt (Some lines) = Some cookies →
  (∀ name, is_Some (cookies !! name)
           ↔ ∃ raw value, raw ∈ lines ∧ Cookies.parse_line raw = Cookies.Stored name value)
  ∧ (∀ pre raw post name value,
       lines = pre ++ raw :: post →
       Cookies.parse_line raw = Cookies.Stored name value →
       (∀ raw' value', raw' ∈ post → Cookies.parse_line raw' ≠ Cookies.Stored name value') →
       cookies !! name = Some value)
  ∧ (∀ raw name value,
       Cookies.parse_line raw = Cookies.Stored name value →
       is_entry (Cookies.strip raw) = true
       ∧ count_tabs (Cookies.strip raw) = 6%nat
       ∧ Cookies.split_tab (Cookies.strip raw) !! 5%nat = Some name
       ∧ Cookies.split_tab (Cookies.strip raw) !! 6%nat = Some value).
Proof.
  simpl. intros Hload. split_and!.
  - intros name. split.
    + intros Hsome.
      destruct (load_lines_stored_inv lines ∅ cookies name Hload Hsome) as [He | ?];
        [| done].
      rewrite lookup_empty in He. by destruct He.
    + intros Hex. apply (load_lines_stored lines ∅ cookies name Hload). by right.
  - intros pre raw post name value Hl Hp Hpost.
    by apply (load_lines_last lines pre raw post ∅ cookies name value).
  - intros raw name value Hp. destruct (is_entry (Cookies.strip raw)) eqn:He.
    + pose proof (parse_line_entry raw He) as Hs. rewrite Hp in Hs. by split.
    + by rewrite (parse_line_blank raw He) in Hp.
Qed.

(** A file with a comment, a short line and two entries for [msToken]. *)
Lemma cookie_file_last_entry_wins_witness :
  let lines := ["# Netscape HTTP Cookie File"; Demo.cookie_line "msToken" "abc";
                "short line"; Demo.cookie_line "msToken" "def"] in
  ∃ cookies,
    @Cookies.load_cookies_txt Demo.no_strip (Some lines) = Some cookies
    ∧ cookies !! "msToken" = Some "def".
Proof.
  intros lines.
  destruct (@Cookies.load_cookies_txt Demo.no_strip (Some lines)) as [cookies |] eqn:Hload;
    [| vm_compute in Hload; discriminate].
  exists cookies. split; [done |].
  refine (proj1 (proj2 (@cookie_file_last_entry_wins Demo.no_strip lines cookies Hload))
            (take 3 lines) (Demo.cookie_line "msToken" "def") [] "msToken" "def" _ _ _).
  - reflexivity.
  - reflexivity.
  - intros raw' value' Hin. by apply not_elem_of_nil in Hin.
Defined.

(** X3: when the cookie file can be read and none of its lines stores
    [msToken], the local and the legacy collector stop at once: nothing is
    pulled, no thumbnail and no dataset file is written. *)
Theorem main_without_ms_token_collects_nothing `{!MediaNormalizer, !Cookies.Strip}
    (cfg : Local.Config) (lcfg : Legacy.Config) (lines : list string)
    (feeds : list (Feed Pulled)) (lfeeds : list (Feed Legacy.Pulled))
    (dir : gmap string string) (file : option (list Row)) :
  (∀ raw, raw ∈ lines → Cookies.parse_line raw ≠ Cookies.ValueError) →
  (∀ raw value, raw ∈ lines → Cookies.parse_line raw ≠ Cookies.Stored "msToken" value) →
  Entry.local_main cfg (Some lines) feeds dir file = Some (initial dir, file)
  ∧ Entry.legacy_main lcfg (Some lines) lfeeds dir = Some (initial dir, None).
Proof.
  intros Hok Hno. unfold Entry.local_main, Entry.legacy_main. simpl.
  destruct (Cookies.load_lines lines ∅) as [cookies |] eqn:Hload.
  - assert (cookies !! "msToken" = None) as Hnone.
    { rewrite (load_lines_untouched lines ∅ cookies "msToken" Hload Hno).
      apply lookup_empty. }
    simpl. unfold Local.main, Legacy.main. by rewrite Hnone.
  - apply load_lines_raises in Hload as (raw & Hin & Hraw). by apply Hok in Hin.
Qed.

(** A cookie file that holds a session id only. *)
Lemma main_without_ms_token_collects_nothing_witness :
  let lines := ["# Netscape HTTP Cookie File"; Demo.cookie_line "sessionid" "s1"] in
  let feed := mkFeed [Sample.eligible "v"] false in
  @Entry.local_main Sample.normalizer Demo.no_strip (Local.mkConfig 5 10 0)
    (Some lines) [feed] ∅ None = Some (initial ∅, None).
Proof.
  intros lines feed.
  refine (proj1 (@main_without_ms_token_collects_nothing Sample.normalizer Demo.no_strip
                   (Local.mkConfig 5 10 0) (Legacy.mkConfig 3 100 200) lines [feed] []
                   ∅ None _ _)).
  - intros raw Hin. repeat (apply elem_of_cons in Hin as [-> | Hin]; [by vm_compute |]).
    by apply not_elem_of_nil in Hin.
  - intros raw value Hin.
    repeat (apply elem_of_cons in Hin as [-> | Hin]; [by vm_compute |]).
    by apply not_elem_of_nil in Hin.
Defined.

(** ** Tokens from the environment and the entry points *)

Section EnvTokens.
Import Env.
Implicit Types (environ : gmap string string).

Lemma token_key_inj i j : token_key i = token_key j → i = j.
Proof. unfold token_key. intros Heq. by apply (inj _) in Heq; apply (inj pretty) in Heq. Qed.

Lemma token_key_not_plain i : token_key i ≠ "MS_TOKEN".
Proof. unfold token_key. intros Heq. simplify_eq/=. Qed.

Lemma truthy_Some token t : truthy token = Some t → token = Some t ∧ t ≠ "".
Proof. destruct token as [[|a s] |]; simpl; intros; by simplify_eq. Qed.

(** The loop does not run out of turns: each turn that goes on uses up a
    variable of the environment that no later turn reads. *)
Lemma numbered_tokens_enough turns environ (m : gmap string string) i :
  (size m < turns)%nat →
  (∀ j, (i ≤ j)%nat → m !! token_key j = environ !! token_key j) →
  is_Some (numbered_tokens turns environ i).
Proof.
  revert m i. induction turns as [|turns IH]; intros m i Hsize Hm; [lia |]. simpl.
  destruct (truthy (environ !! token_key i)) as [t |] eqn:Ht; [| eauto].
  apply truthy_Some in Ht as [Ht _].
  destruct (IH (delete (token_key i) m) (S i)) as [ts Hts].
  - assert (is_Some (m !! token_key i)) as [v Hv] by (rewrite Hm, Ht; eauto).
    assert (size m = S (size (delete (token_key i) m))).
    { rewrite <- (insert_delete_id m (token_key i) v) at 1 by done.
      apply map_size_insert_None, lookup_delete_eq. }
    lia.
  - intros j Hj. rewrite lookup_delete_ne; [apply Hm; lia |].
    intros Heq. apply token_key_inj in Heq. lia.
  - rewrite Hts. eauto.
Qed.

Lemma numbered_tokens_spec turns environ i tokens :
  numbered_tokens turns environ i = Some tokens →
  (∀ j t, tokens !! j = Some t → environ !! token_key (i + j) = Some t ∧ t ≠ "")
  ∧ truthy (environ !! token_key (i + length tokens)) = None.
Proof.
  revert i tokens. induction turns as [|turns IH]; intros i tokens Hrun; [done |].
  simpl in Hrun. destruct (truthy (environ !! token_key i)) as [t |] eqn:Ht.
  - destruct (numbered_tokens turns environ (S i)) as [ts |] eqn:Hts; [| done].
    simpl in Hrun. simplify_eq. destruct (IH _ _ Hts) as [Hall Hend]. split.
    + intros [|j] t' Hj; simpl in Hj.
      * simplify_eq. rewrite Nat.add_0_r. by apply truthy_Some.
      * replace (i + S j)%nat with (S i + j)%nat by lia. by apply Hall.
    + simpl. by replace (i + S (length ts))%nat with (S i + length ts)%nat by lia.
  - simplify_eq. simpl. by rewrite Nat.add_0_r.
Qed.

(** The answer is the same for any number of turns that suffices. *)
Lemma numbered_tokens_turns t1 t2 environ i ts1 ts2 :
  numbered_tokens t1 environ i = Some ts1 →
  numbered_tokens t2 environ i = Some ts2 → ts1 = ts2.
Proof.
  revert t2 i ts1 ts2. induction t1 as [|t1 IH]; intros [|t2] i ts1 ts2 H1 H2; try done.
  simpl in *. destruct (truthy (environ !! token_key i)); [| by simplify_eq].
  destruct (numbered_tokens t1 environ (S i)) as [r1 |] eqn:E1; [| done].
  destruct (numbered_tokens t2 environ (S i)) as [r2 |] eqn:E2; [| done].
  simpl in *. simplify_eq. f_equal. by eapply IH.
Qed.
End EnvTokens.

Lemma load_cookies_from_env_total (environ : gmap string string) :
  ∃ ts, Env.numbered_tokens (S (size environ)) environ 1 = Some ts.
Proof. by apply (numbered_tokens_enough _ environ environ); [lia |]. Qed.

Lemma load_cookies_from_env_nil (environ : gmap string string) :
  Env.load_cookies_from_env environ = Some []
  ↔ Env.truthy (environ !! Env.token_key 1) = None
    ∧ Env.truthy (environ !! "MS_TOKEN") = None.
Proof.
  unfold Env.load_cookies_from_env.
  destruct (load_cookies_from_env_total environ) as [ts Hts].
  rewrite Hts. simpl. simpl in Hts.
  destruct (Env.truthy (environ !! Env.token_key 1)) as [t |] eqn:Hone.
  + destruct (Env.numbered_tokens (size environ) environ 2); simplify_eq/=.
    split; [done | by intros [? _]].
  + simplify_eq. destruct (Env.truthy (environ !! "MS_TOKEN")); split; try done.
    by intros [_ ?].
Qed.

(** X4: reading the tokens from the environment always comes to an end,
    and when [MS_TOKEN_1] is set to a non-empty value the answer is the
    values of [MS_TOKEN_1], [MS_TOKEN_2], ... up to the first number whose
    variable is unset or empty; variables behind that gap are not read.  No
    token of the answer is empty. *)
Theorem env_tokens_are_read_up_to_first_gap (environ : gmap string string) :
  ∃ tokens,
    Env.load_cookies_from_env environ = Some tokens
    ∧ Forall (λ token, token ≠ "") tokens
    ∧ (Env.truthy (environ !! Env.token_key 1) ≠ None →
       tokens ≠ []
       ∧ (∀ j token, tokens !! j = Some token →
                     environ !! Env.token_key (S j) = Some token)
       ∧ Env.truthy (environ !! Env.token_key (S (length tokens))) = None).
Proof.
  unfold Env.load_cookies_from_env.
  destruct (load_cookies_from_env_total environ) as [ts Hts].
  rewrite Hts. simpl. destruct (numbered_tokens_spec _ _ _ _ Hts) as [Hall Hend].
  eexists. split; [done |]. destruct ts as [|t ts].
  - split.
    + destruct (Env.truthy (environ !! "MS_TOKEN")) as [t |] eqn:Ht; [| done].
      apply truthy_Some in Ht as [_ ?]. by constructor.
    + intros Hone. simpl in Hend. done.
  - split; [| intros _; split_and!; [done | | done]].
    + apply Forall_forall. intros x Hx. apply list_elem_of_lookup in Hx as [j Hj].
      by destruct (Hall j x Hj).
    + intros j token Hj. by destruct (Hall j token Hj).
Qed.

Lemma numbered_tokens_ext turns (e1 e2 : gmap string string) i :
  (∀ j, e1 !! Env.token_key j = e2 !! Env.token_key j) →
  Env.numbered_tokens turns e1 i = Env.numbered_tokens turns e2 i.
Proof.
  intros Hext. revert i. induction turns as [|turns IH]; intros i; simpl; [done |].
  rewrite Hext. destruct (Env.truthy _); [by rewrite IH | done].
Qed.

(** X5: the plain variable [MS_TOKEN] is a fallback only: it is the single
    token of the answer when [MS_TOKEN_1] is unset or empty, it is ignored
    when [MS_TOKEN_1] is set, and the answer is empty exactly when both are
    unset or empty. *)
Theorem env_plain_token_is_fallback (environ : gmap string string) (value : string) :
  (Env.truthy (environ !! Env.token_key 1) = None →
   Env.load_cookies_from_env environ
   = Some (match Env.truthy (environ !! "MS_TOKEN") with
           | Some token => [token]
           | None => []
           end))
  ∧ (Env.truthy (environ !! Env.token_key 1) ≠ None →
     Env.load_cookies_from_env (<["MS_TOKEN" := value]> environ)
     = Env.load_cookies_from_env environ)
  ∧ (Env.load_cookies_from_env environ = Some []
     ↔ Env.truthy (environ !! Env.token_key 1) = None
       ∧ Env.truthy (environ !! "MS_TOKEN") = None).
Proof.
  pose proof load_cookies_from_env_total as Hrun.
  split_and!.
  - intros Hone. unfold Env.load_cookies_from_env. simpl. by rewrite Hone.
  - intros Hone. unfold Env.load_cookies_from_env.
    destruct (Hrun environ) as [ts Hts].
    destruct (Hrun (<["MS_TOKEN" := value]> environ)) as [ts' Hts'].
    rewrite Hts, Hts'. simpl.
    rewrite (numbered_tokens_ext _ _ environ) in Hts'.
    2:{ intros j. apply lookup_insert_ne. intros Heq. by apply (token_key_not_plain j). }
    rewrite (numbered_tokens_turns _ _ _ _ _ _ Hts' Hts).
    destruct ts as [|t ts]; [| done].
    simpl in Hts. destruct (Env.truthy (environ !! Env.token_key 1)); [| done].
    destruct (Env.numbered_tokens (size environ) environ 2); simplify_eq/=.
  - apply load_cookies_from_env_nil.
Qed.

(** X6: the Lambda entry point always returns; its status is 400 exactly
    when neither [MS_TOKEN_1] nor [MS_TOKEN] is set to a non-empty value,
    500 exactly when there is a token but the sessions cannot be opened, and
    200 otherwise; with 400 or 500 nothing was collected or written. *)
Theorem lambda_handler_status `{!MediaNormalizer} (cfg : S3.Config)
    (environ : gmap string string) (sessions_raise : bool)
    (terms : list S3.Term) (last_call : Merger.S3Call)
    (bucket : gmap string string) (tbl : option (list Row)) :
  let no_token := Env.truthy (environ !! Env.token_key 1) = None
                  ∧ Env.truthy (environ !! "MS_TOKEN") = None in
  ∃ status st,
    Entry.lambda_handler cfg environ sessions_raise terms last_call bucket tbl
    = Some (status, st)
    ∧ (status = 400 ↔ no_token)
    ∧ (status = 500 ↔ ¬ no_token ∧ sessions_raise = true)
    ∧ (status = 200 ↔ ¬ no_token ∧ sessions_raise = false)
    ∧ (status ≠ 200 → st = S3.initial bucket tbl).
Proof.
  intros no_token. subst no_token. unfold Entry.lambda_handler.
  pose proof (load_cookies_from_env_nil environ) as Hempty.
  destruct (load_cookies_from_env_total environ) as [ts0 Hts].
  destruct (Env.load_cookies_from_env environ) as [tokens |] eqn:Hload.
  2:{ unfold Env.load_cookies_from_env in Hload. by rewrite Hts in Hload. }
  simpl. destruct tokens as [|t ts].
  - assert (Env.truthy (environ !! Env.token_key 1) = None
            ∧ Env.truthy (environ !! "MS_TOKEN") = None) as Hno by by apply Hempty.
    eexists _, _. split; [done |]. simpl. split_and!.
    + split; [by intros _ | done].
    + split; [done | by intros [Hn _]].
    + split; [done | by intros [Hn _]].
    + done.
  - assert (¬ (Env.truthy (environ !! Env.token_key 1) = None
               ∧ Env.truthy (environ !! "MS_TOKEN") = None)) as Hyes.
    { intros Hno. apply Hempty in Hno. done. }
    destruct sessions_raise; simpl; (eexists _, _; split; [done |]); split_and!.
    + split; [done | intros Hno; by apply Hyes in Hno].
    + split; [by intros _ | done].
    + split; [done | by intros [_ ?]].
    + done.
    + split; [done | intros Hno; by apply Hyes in Hno].
    + split; [done | by intros [_ ?]].
    + split; [by intros _ | done].
    + done.
Qed.

(** ** More on ranking, and hashtags *)

Section RankerMore.
Import Ranker.

Lemma sort_reverse_Permutation l l' : l ≡ₚ l' → sort_reverse l = sort_reverse l'.
Proof.
  intros Hp. apply sort_reverse_unique; [| apply sort_reverse_sorted].
  by rewrite sort_reverse_perm.
Qed.

Lemma collected_app l1 l2 r :
  collected (mkStream (l1 ++ l2) r) = collected (mkStream l1 r) ++ collected (mkStream l2 r).
Proof. unfold collected. simpl. apply omap_app. Qed.

Lemma collected_from s t z :
  (z, t) ∈ collected s → ∃ d, WellFormed d t ∈ yielded s ∧ z = default 0 d.
Proof.
  unfold collected. intros Hin. apply list_elem_of_omap in Hin as (c & Hc & He).
  destruct c as [d t' |]; simpl in He; [| done]. simplify_eq. eauto.
Qed.

Lemma collected_length s : (length (collected s) ≤ length (yielded s))%nat.
Proof.
  unfold collected. generalize (yielded s). intros l.
  induction l as [|c l IH]; [done |]. csimpl. destruct (entry c); simpl; lia.
Qed.
End RankerMore.

Section Hashtags.

Lemma rev_app_app a b c : String.rev_app (String.rev_app a b) c = String.rev_app b (a +:+ c).
Proof.
  revert b c. induction a as [|x a IH]; intros b c; simpl; [done |].
  rewrite IH. done.
Qed.

Lemma string_rev_involutive s : String.rev (String.rev s) = s.
Proof.
  unfold String.rev. rewrite rev_app_app. simpl.
  induction s as [|a s IH]; [done |].
  change (String a s +:+ "") with (String a (s +:+ "")). by f_equal.
Qed.

Lemma all_word_rev_app a b : all_word (String.rev_app a b) = all_word a && all_word b.
Proof.
  revert b. induction a as [|x a IH]; intros b; simpl; [done |].
  rewrite IH. simpl. destruct (is_word x), (all_word a), (all_word b); done.
Qed.

Lemma flush_tag_word cur tag :
  from_option (λ t, all_word t = true) True cur →
  tag ∈ flush_tag cur → tag ≠ "" ∧ all_word tag = true.
Proof.
  destruct cur as [[|a t] |]; simpl; intros Hw Hin;
    try (by apply not_elem_of_nil in Hin).
  apply list_elem_of_singleton in Hin as ->. split.
  - intros Heq. apply (f_equal String.rev) in Heq.
    by rewrite string_rev_involutive in Heq.
  - unfold String.rev. rewrite all_word_rev_app. simpl. by rewrite Hw.
Qed.

Lemma scan_hashtags_word cur txt tag :
  from_option (λ t, all_word t = true) True cur →
  tag ∈ scan_hashtags cur txt → tag ≠ "" ∧ all_word tag = true.
Proof.
  revert cur. induction txt as [|a rest IH]; intros cur Hw Hin; simpl in Hin.
  { by apply (flush_tag_word cur). }
  destruct cur as [t |].
  - destruct (is_word a) eqn:Ha.
    + apply (IH (Some (String a t))); [| done]. simpl in *. by rewrite Ha, Hw.
    + apply elem_of_app in Hin as [Hin | Hin]; [by apply (flush_tag_word (Some t)) |].
      apply (IH (if Ascii.eqb a "#" then Some "" else None)); [| done].
      by destruct (Ascii.eqb a "#").
  - apply (IH (if Ascii.eqb a "#" then Some "" else None)); [| done].
    by destruct (Ascii.eqb a "#").
Qed.

Lemma scan_hashtags_hash_free txt :
  hash_free txt = true → scan_hashtags None txt = [].
Proof.
  induction txt as [|a rest IH]; simpl; [done |].
  destruct (Ascii.eqb a "#"); simpl; [done | exact IH].
Qed.

(** Reading a tag up to the blank that ends it. *)
Lemma scan_hashtags_tag tag acc rest :
  all_word tag = true →
  scan_hashtags (Some acc) (tag +:+ String " " rest)
  = flush_tag (Some (String.rev_app tag acc)) ++ scan_hashtags None rest.
Proof.
  revert acc. induction tag as [|a tag IH]; intros acc Hw; simpl in *; [done |].
  apply andb_true_iff in Hw as [Ha Hw]. rewrite Ha. by apply IH.
Qed.

Lemma extract_render tags :
  Forall (λ tag, tag ≠ "" ∧ all_word tag = true) tags →
  extract_hashtags (render_hashtags tags) = tags.
Proof.
  unfold extract_hashtags. induction 1 as [|tag tags [Hne Hw] _ IH]; [done |].
  assert (scan_hashtags None (render_hashtags (tag :: tags))
          = scan_hashtags (Some "") (tag +:+ String " " (render_hashtags tags)))
    as -> by reflexivity.
  rewrite scan_hashtags_tag by done. rewrite IH.
  destruct tag as [|a t]; [done |].
  change (String.rev_app (String a t) "") with (String.rev (String a t)).
  destruct (String.rev (String a t)) as [|b u] eqn:Hrev.
  { apply (f_equal String.rev) in Hrev. by rewrite string_rev_involutive in Hrev. }
  cbn [flush_tag]. rewrite <- Hrev, string_rev_involutive. done.
Qed.
End Hashtags.

(** X7: the ranking does not depend on the order in which the comments
    arrive: two pages that hold the same comments, in any order, give the
    same list of top comments, in the local, the S3 and the legacy ranker. *)
Theorem ranking_ignores_arrival_order (s s' : Ranker.CommentStream)
    (tuples tuples' : list (Z * string)) (n : nat) :
  Ranker.collected s ≡ₚ Ranker.collected s' →
  tuples ≡ₚ tuples' →
  Ranker.fetch_top_comments s n = Ranker.fetch_top_comments s' n
  ∧ Ranker.fetch_top_comments_legacy tuples false n
    = Ranker.fetch_top_comments_legacy tuples' false n.
Proof.
  intros Hs Ht. split.
  - rewrite !fetch_top_comments_eq. by rewrite (sort_reverse_Permutation _ _ Hs).
  - unfold Ranker.fetch_top_comments_legacy. by rewrite (sort_reverse_Permutation _ _ Ht).
Qed.

(** A page and the same page read backwards. *)
Lemma ranking_ignores_arrival_order_witness :
  let page := [(3, "nice"); (7, "wow"); (3, "cool")] in
  Ranker.fetch_top_comments (Ranker.stream_of page false) 2
  = Ranker.fetch_top_comments (Ranker.stream_of (reverse page) false) 2.
Proof.
  intros page.
  refine (proj1 (ranking_ignores_arrival_order (Ranker.stream_of page false)
                   (Ranker.stream_of (reverse page) false) page (reverse page) 2 _ _)).
  - rewrite !collected_stream_of. symmetry. apply reverse_Permutation.
  - symmetry. apply reverse_Permutation.
Defined.


(** X9: whatever the page holds, the ranker returns as many texts as it
    could read comments, up to [n], and every text it returns is the text
    of a readable comment of the page. *)
Theorem ranking_returns_page_texts (s : Ranker.CommentStream) (n : nat) :
  let out := Ranker.fetch_top_comments s n in
  length out = (length (Ranker.collected s) `min` n)%nat
  ∧ (length out ≤ length (Ranker.yielded s))%nat
  ∧ ∀ text, text ∈ out → ∃ digg_count, Ranker.WellFormed digg_count text ∈ Ranker.yielded s.
Proof.
  intros out. subst out. rewrite fetch_top_comments_eq.
  assert (length (take n (Ranker.sort_reverse (Ranker.collected s))).*2
          = (length (Ranker.collected s) `min` n)%nat) as Hlen.
  { rewrite length_fmap, length_take,
      (Permutation_length (sort_reverse_perm (Ranker.collected s))). lia. }
  split_and!; [done | |].
  - rewrite Hlen. pose proof (collected_length s). lia.
  - intros text Hin. apply list_elem_of_fmap in Hin as ([z t] & -> & Hin).
    apply elem_of_take in Hin as (i & Hin & _).
    apply list_elem_of_lookup_2 in Hin. rewrite sort_reverse_perm in Hin.
    apply collected_from in Hin as (d & ? & _). eauto.
Qed.

(** X10: every hashtag extracted from a caption is a non-empty string of
    letters, digits and underscores. *)
Theorem hashtags_are_words (txt : string) :
  Forall (λ tag, tag ≠ "" ∧ all_word tag = true) (extract_hashtags txt).
Proof.
  apply Forall_forall. intros tag Hin. unfold extract_hashtags in Hin.
  by apply (scan_hashtags_word None txt tag).
Qed.

(** X11: tags written one after the other as [#tag ] are read back as they
    were written, and a caption without [#] has no hashtag. *)
Theorem hashtags_round_trip (tags : list string) (txt : string) :
  Forall (λ tag, tag ≠ "" ∧ all_word tag = true) tags →
  hash_free txt = true →
  extract_hashtags (render_hashtags tags) = tags
  ∧ extract_hashtags txt = [].
Proof.
  intros Htags Hfree. split; [by apply extract_render |].
  by apply scan_hashtags_hash_free.
Qed.

(** Two tags and a caption without any. *)
Lemma hashtags_round_trip_witness :
  extract_hashtags (render_hashtags ["skincare"; "k_beauty2"]) = ["skincare"; "k_beauty2"]
  ∧ extract_hashtags "no tags here" = [].
Proof.
  apply (hashtags_round_trip ["skincare"; "k_beauty2"] "no tags here").
  - repeat constructor; done.
  - reflexivity.
Defined.

(** ** More on the Dataset Merger *)

Section MergerMore.
Import Merger.

Lemma not_isin_sublist ids (rows : list Row) : not_isin ids rows `sublist_of` rows.
Proof. unfold not_isin. apply sublist_filter. Qed.

Lemma bool_decide_length_false {A} (l : list A) :
  bool_decide (0 < length l)%nat = false → l = [].
Proof. destruct l; [done |]. intros Hb. apply bool_decide_eq_false in Hb. simpl in Hb. lia. Qed.

(** A call changes the stored table only through a successful put. *)
Lemma save_batch_written c rows object :
  let r := save_batch_to_s3 c rows object in
  (written r = false → object_after r = object)
  ∧ (written r = true → put_succeeds c = true ∧ get_outcome c ≠ GetRaises).
Proof.
  unfold save_batch_to_s3, load_existing_parquet_from_s3, save_parquet_to_s3.
  destruct c as [[] []]; simpl; repeat (case_match; simplify_eq/=); done.
Qed.

(** The stored table after a call, when the loader did not mistake an
    error for an absent table. *)
Lemma save_batch_appends c rows object :
  get_outcome c ≠ GetClientError →
  ∃ new_df, new_df `sublist_of` rows
    ∧ (∀ r, r ∈ new_df → video_id r ∉ table_ids object)
    ∧ match object with
      | Some existing_df =>
          object_after (save_batch_to_s3 c rows object) = Some (existing_df ++ new_df)
      | None =>
          object_after (save_batch_to_s3 c rows object)
          = if written (save_batch_to_s3 c rows object) then Some new_df else None
      end.
Proof.
  intros Hget. unfold save_batch_to_s3, load_existing_parquet_from_s3, save_parquet_to_s3.
  destruct c as [[] ok]; simpl in *; [| done |].
  - destruct object as [e |]; simpl.
    + destruct rows as [|r rs].
      { exists []. rewrite app_nil_r. split_and!; [done | | done].
        intros ? Hin. by apply not_elem_of_nil in Hin. }
      destruct (bool_decide _) eqn:Hlen.
      * destruct ok; simpl.
        -- eexists. split_and!; [apply not_isin_sublist | | done].
           intros x Hx. by apply elem_of_not_isin in Hx as [? _].
        -- exists []. rewrite app_nil_r. split_and!; [apply sublist_nil_l | | done].
           intros ? Hin. by apply not_elem_of_nil in Hin.
      * exists []. rewrite app_nil_r. split_and!; [apply sublist_nil_l | | done].
        intros ? Hin. by apply not_elem_of_nil in Hin.
    + destruct ok; simpl.
      * exists rows. split_and!; [done | | done]. intros x _. apply not_elem_of_empty.
      * exists []. split_and!; [apply sublist_nil_l | | done].
        intros ? Hin. by apply not_elem_of_nil in Hin.
  - exists []. destruct object; simpl; rewrite ?app_nil_r; split_and!; try done;
      try apply sublist_nil_l; intros ? Hin; by apply not_elem_of_nil in Hin.
Qed.

(** Whatever happens, the rows stored afterwards come from the batch or
    from the table that was there. *)
Lemma save_batch_rows_from c rows object stored r :
  object_after (save_batch_to_s3 c rows object) = Some stored →
  r ∈ stored → r ∈ rows ∨ ∃ existing_df, object = Some existing_df ∧ r ∈ existing_df.
Proof.
  unfold save_batch_to_s3, load_existing_parquet_from_s3, save_parquet_to_s3.
  destruct c as [[] ok]; simpl; intros Hafter Hin.
  - destruct object as [e |]; simpl in *.
    + destruct rows as [|x rs]; simpl in *; [simplify_eq; eauto |].
      destruct (bool_decide _); [| simplify_eq/=; eauto].
      destruct ok; simplify_eq/=; [| eauto].
      apply elem_of_app in Hin as [Hin | Hin]; [eauto |].
      left. by apply elem_of_not_isin in Hin as [_ ?].
    + destruct ok; simplify_eq/=. by left.
  - destruct ok; simplify_eq/=; [by left | eauto].
  - simplify_eq/=. eauto.
Qed.

Lemma persist_local_appends rows file :
  ∃ new_df, new_df `sublist_of` rows
    ∧ (∀ r, r ∈ new_df → video_id r ∉ table_ids file)
    ∧ persist_local rows file
      = match file with
        | Some existing_df => Some (existing_df ++ new_df)
        | None => match rows with [] => None | _ :: _ => Some new_df end
        end.
Proof.
  unfold persist_local. destruct rows as [|x rs].
  { exists []. destruct file; rewrite ?app_nil_r; split_and!; try done;
      intros ? Hin; by apply not_elem_of_nil in Hin. }
  destruct file as [e |]; simpl.
  - destruct (bool_decide _) eqn:Hlen.
    + eexists. split_and!; [apply not_isin_sublist | | done].
      intros r Hr. by apply elem_of_not_isin in Hr as [? _].
    + exists []. rewrite app_nil_r. split_and!; [apply sublist_nil_l | | done].
      intros ? Hin. by apply not_elem_of_nil in Hin.
  - exists (x :: rs). split_and!; [done | | done]. intros r _. apply not_elem_of_empty.
Qed.
End MergerMore.

Section MergerCompose.
Import Merger.

Lemma not_isin_app ids (l k : list Row) : not_isin ids (l ++ k) = not_isin ids l ++ not_isin ids k.
Proof. unfold not_isin. apply filter_app. Qed.

Lemma not_isin_ext (ids1 ids2 : gset string) (l : list Row) :
  (∀ r, r ∈ l → video_id r ∈ ids1 ↔ video_id r ∈ ids2) →
  not_isin ids1 l = not_isin ids2 l.
Proof.
  unfold not_isin. induction l as [|r l IH]; intros Hext; [done |].
  rewrite !filter_cons. rewrite IH by (intros x Hx; apply Hext; by right).
  assert (video_id r ∈ ids1 ↔ video_id r ∈ ids2) as Hr by (apply Hext; left).
  repeat case_decide; tauto.
Qed.

Lemma not_isin_twice (ids1 ids2 : gset string) (l : list Row) :
  not_isin ids1 (not_isin ids2 l) = not_isin (ids1 ∪ ids2) l.
Proof.
  unfold not_isin. induction l as [|r l IH]; [done |].
  rewrite !filter_cons. destruct (decide (video_id r ∉ ids2)) as [H2 | H2].
  - rewrite filter_cons, IH.
    destruct (decide (video_id r ∉ ids1)) as [H1 | H1];
      destruct (decide (video_id r ∉ ids1 ∪ ids2)) as [H3 | H3]; try done.
    + exfalso. apply H3. by apply not_elem_of_union.
    + exfalso. by apply not_elem_of_union in H3 as [? _].
  - rewrite IH. destruct (decide (video_id r ∉ ids1 ∪ ids2)) as [H3 | H3]; [| done].
    by apply not_elem_of_union in H3 as [_ ?].
Qed.

Lemma not_isin_same (ids : gset string) (l : list Row) :
  not_isin ids (not_isin ids l) = not_isin ids l.
Proof. rewrite not_isin_twice. by rewrite (idemp_L (∪)). Qed.

(** With S3 answering normally the S3 merge stores what the local merge
    stores. *)
Lemma save_batch_is_persist_local rows object :
  rows ≠ [] →
  object_after (save_batch_to_s3 (mkS3Call GetAnswers true) rows object)
  = persist_local rows object.
Proof.
  intros Hne. destruct rows as [|r rs]; [done |].
  unfold save_batch_to_s3, persist_local; simpl.
  destruct object as [e |]; simpl; [| done]. by destruct (bool_decide _).
Qed.

Lemma persist_local_Some rows existing_df :
  persist_local rows (Some existing_df)
  = Some (existing_df ++ not_isin (existing_video_ids existing_df) rows).
Proof.
  unfold persist_local. destruct rows as [|r rs]; [by rewrite app_nil_r |].
  destruct (bool_decide _) eqn:Hlen; [done |].
  apply bool_decide_length_false in Hlen. by rewrite Hlen, app_nil_r.
Qed.

(** Two merges in a row are one merge of the first batch followed by the
    rows of the second whose ids the first did not bring. *)
Lemma persist_local_twice b1 b2 file :
  persist_local b2 (persist_local b1 file)
  = persist_local (b1 ++ not_isin (existing_video_ids b1) b2) file.
Proof.
  destruct file as [e |].
  - rewrite !persist_local_Some. f_equal. rewrite <- app_assoc. f_equal.
    rewrite not_isin_app, not_isin_twice. f_equal.
    apply not_isin_ext. intros r _. by rewrite combined_id_set.
  - destruct b1 as [|r rs].
    + simpl. rewrite existing_video_ids_nil.
      assert (not_isin ∅ b2 = b2) as ->; [| done].
      unfold not_isin. clear. induction b2 as [|x l IH]; [done |].
      rewrite filter_cons, IH. case_decide as Hx; [done |].
      by apply not_elem_of_empty in Hx.
    + change (persist_local (r :: rs) None) with (Some (r :: rs)).
      by rewrite persist_local_Some.
Qed.
End MergerCompose.

(** X12: a merge only appends.  When the load does not fail with a
    [ClientError] other than [NoSuchKey], the S3 merge leaves the rows of
    the existing table in front and in their order, and what it adds is a
    selection of the batch in arrival order whose ids the table did not
    hold; the local merge does the same. *)
Theorem merge_is_append_only (c : Merger.S3Call)
    (rows existing_df : list Row) :
  Merger.get_outcome c ≠ Merger.GetClientError →
  (∃ new_df,
     Merger.object_after (Merger.save_batch_to_s3 c rows (Some existing_df))
     = Some (existing_df ++ new_df)
     ∧ new_df `sublist_of` rows
     ∧ ∀ r, r ∈ new_df → video_id r ∉ row_ids existing_df)
  ∧ (∃ new_df,
       Merger.persist_local rows (Some existing_df) = Some (existing_df ++ new_df)
       ∧ new_df `sublist_of` rows
       ∧ ∀ r, r ∈ new_df → video_id r ∉ row_ids existing_df).
Proof.
  intros Hget. split.
  - destruct (save_batch_appends c rows (Some existing_df) Hget) as (new_df & Hs & Hn & He).
    exists new_df. split_and!; [done | done |].
    intros r Hr Hin. apply (Hn r Hr). by apply elem_of_existing_video_ids.
  - destruct (persist_local_appends rows (Some existing_df)) as (new_df & Hs & Hn & He).
    exists new_df. split_and!; [done | done |].
    intros r Hr Hin. apply (Hn r Hr). by apply elem_of_existing_video_ids.
Qed.

(** The table [A, B] and the batch [A, C, C, D]. *)
Lemma merge_is_append_only_witness :
  Merger.get_outcome Sample.s3_ok ≠ Merger.GetClientError
  ∧ ∃ new_df,
      Merger.object_after
        (Merger.save_batch_to_s3 Sample.s3_ok Sample.batch_ACCD (Some Sample.existing_AB))
      = Some (Sample.existing_AB ++ new_df)
      ∧ new_df `sublist_of` Sample.batch_ACCD
      ∧ ∀ r, r ∈ new_df → video_id r ∉ row_ids Sample.existing_AB.
Proof.
  assert (Hget : Merger.get_outcome Sample.s3_ok ≠ Merger.GetClientError) by done.
  split; [exact Hget |].
  exact (proj1 (merge_is_append_only Sample.s3_ok Sample.batch_ACCD Sample.existing_AB Hget)).
Defined.

(** X13: for a non-empty batch and a load that is answered, the count that
    [save_batch_to_s3] returns is the number of rows of the table stored
    afterwards (0 if there is none), whether or not the write went through;
    for an empty batch it returns 0 whatever is stored. *)
Theorem merge_returns_stored_length (c : Merger.S3Call)
    (rows : list Row) (object : option (list Row)) :
  rows ≠ [] →
  Merger.get_outcome c = Merger.GetAnswers →
  Merger.returned (Merger.save_batch_to_s3 c rows object)
  = length (default [] (Merger.object_after (Merger.save_batch_to_s3 c rows object)))
  ∧ Merger.returned (Merger.save_batch_to_s3 c [] object) = 0%nat.
Proof.
  intros Hne Hget. destruct c as [get ok]. simpl in Hget. subst get.
  unfold Merger.save_batch_to_s3, Merger.save_parquet_to_s3. simpl.
  destruct rows as [|r rs]; [done |]. destruct object as [e |]; simpl.
  - destruct (bool_decide _); destruct ok; simpl; done.
  - destruct ok; simpl; done.
Qed.

(** The count after merging [A, C, C, D] into [A, B]. *)
Lemma merge_returns_stored_length_witness :
  Sample.batch_ACCD ≠ []
  ∧ Merger.returned
      (Merger.save_batch_to_s3 Sample.s3_ok Sample.batch_ACCD (Some Sample.existing_AB))
    = 5%nat.
Proof.
  assert (Hne : Sample.batch_ACCD ≠ []) by done.
  split; [exact Hne |].
  exact (proj1 (merge_returns_stored_length Sample.s3_ok Sample.batch_ACCD
                  (Some Sample.existing_AB) Hne eq_refl)).
Defined.

(** X14: a call of [save_batch_to_s3] changes the stored table only if its
    write went through; a failed write, or a load that raised, leaves the
    table as it was, and a load that raised returns 0. *)
Theorem failed_save_leaves_table (c : Merger.S3Call)
    (rows : list Row) (object : option (list Row)) :
  let r := Merger.save_batch_to_s3 c rows object in
  (Merger.written r = false → Merger.object_after r = object)
  ∧ (Merger.put_succeeds c = false → Merger.written r = false)
  ∧ (Merger.get_outcome c = Merger.GetRaises →
     Merger.written r = false ∧ Merger.returned r = 0%nat).
Proof.
  intros r. subst r.
  destruct (save_batch_written c rows object) as [Hw Hp]. split_and!; [done | |].
  - intros Hput. destruct (Merger.written _) eqn:E; [| done].
    destruct (Hp eq_refl) as [Hok _]. congruence.
  - intros Hget. destruct c as [get ok]. simpl in Hget. by subst get.
Qed.

(** X15: two merges in a row amount to one: merging a batch and then a
    second one stores what a single merge of the first batch followed by the
    rows of the second whose ids the first did not bring stores.  With S3
    answering normally the S3 merge of a non-empty batch stores what the
    local merge stores, so the same holds there. *)
Theorem merges_compose (b1 b2 : list Row) (file : option (list Row)) :
  b1 ≠ [] → b2 ≠ [] →
  let ok := Merger.mkS3Call Merger.GetAnswers true in
  let rest := Merger.not_isin (Merger.existing_video_ids b1) b2 in
  Merger.persist_local b2 (Merger.persist_local b1 file)
  = Merger.persist_local (b1 ++ rest) file
  ∧ Merger.object_after (Merger.save_batch_to_s3 ok b1 file)
    = Merger.persist_local b1 file
  ∧ Merger.object_after
      (Merger.save_batch_to_s3 ok b2
         (Merger.object_after (Merger.save_batch_to_s3 ok b1 file)))
    = Merger.object_after (Merger.save_batch_to_s3 ok (b1 ++ rest) file).
Proof.
  intros H1 H2 ok rest. subst ok rest. split_and!.
  - apply persist_local_twice.
  - by apply save_batch_is_persist_local.
  - rewrite !save_batch_is_persist_local; [apply persist_local_twice | | done | done].
    by destruct b1.
Qed.

(** Merging [A, C] and then [C, D] into the table [A, B]. *)
Lemma merges_compose_witness :
  let b1 := [Sample.row "A"; Sample.row "C"] in
  let b2 := [Sample.row "C"; Sample.row "D"] in
  b1 ≠ [] ∧ b2 ≠ []
  ∧ Merger.persist_local b2 (Merger.persist_local b1 (Some Sample.existing_AB))
    = Merger.persist_local
        (b1 ++ Merger.not_isin (Merger.existing_video_ids b1) b2)
        (Some Sample.existing_AB).
Proof.
  intros b1 b2.
  assert (Hb1 : b1 ≠ []) by done. assert (Hb2 : b2 ≠ []) by done.
  split; [exact Hb1 | split; [exact Hb2 |]].
  exact (proj1 (merges_compose b1 b2 (Some Sample.existing_AB) Hb1 Hb2)).
Defined.

(** ** Runs of the S3 collector *)

Section S3Effects.
Context `{!MediaNormalizer}.
Implicit Types (cfg : S3.Config) (p : S3.Pull) (st : S3.State).

Lemma s3_build_row_fields v row :
  S3.build_row v = Some row →
  video_id row = id v ∧ thumbnail row = S3.thumbnail_s3_key (id v).
Proof. unfold S3.build_row. intros Hrow. by simplify_option_eq. Qed.

(** What the thumbnail block changes: only the thumbnails and the trace,
    no object disappears, and when it falls through the object is there. *)
Lemma s3_thumbnail_step_effect p st :
  let r := S3.thumbnail_step p st in
  S3.rows r.1 = S3.rows st ∧ S3.attempts r.1 = S3.attempts st
  ∧ S3.total_processed r.1 = S3.total_processed st
  ∧ S3.batch_count r.1 = S3.batch_count st
  ∧ S3.elapsed_time r.1 = S3.elapsed_time st
  ∧ S3.table r.1 = S3.table st
  ∧ (∀ key, is_Some (S3.thumbs st !! key) → is_Some (S3.thumbs r.1 !! key))
  ∧ (r.2 = true →
     is_Some (S3.thumbs r.1 !! S3.thumbnail_s3_key (id (video (S3.pulled p))))).
Proof.
  unfold S3.thumbnail_step, S3.resize_and_save_to_s3, S3.check_s3_object_exists.
  cbn [S3.thumbs S3.log].
  destruct (S3.head_client_error p); cbn [negb].
  all: repeat (case_match; simplify_eq); cbn; split_and!; try done.
  all: try (intros key Hkey; destruct (decide (S3.thumbnail_s3_key (id (video (S3.pulled p))) = key)) as [-> | Hne];
       [rewrite lookup_insert_eq; eauto | by rewrite lookup_insert_ne]).
  all: try (intros _; rewrite lookup_insert_eq; eauto).
  all: intros _; match goal with Hb : bool_decide _ = true |- _ =>
         by apply bool_decide_eq_true in Hb end.
Qed.
End S3Effects.

Section S3Run.
Context `{!MediaNormalizer}.
Implicit Types (cfg : S3.Config) (p : S3.Pull) (st : S3.State).

(** What the enrichment of one candidate changes. *)
Lemma s3_enrich_effect p st :
  let r := S3.enrich p st in
  let st' := s3_state_of r in
  S3.attempts st' = S3.attempts st
  ∧ S3.batch_count st' = S3.batch_count st
  ∧ S3.elapsed_time st' = S3.elapsed_time st
  ∧ S3.table st' = S3.table st
  ∧ (∀ key, is_Some (S3.thumbs st !! key) → is_Some (S3.thumbs st' !! key))
  ∧ (if s3_appended r
     then ∃ row, S3.rows st' = S3.rows st ++ [row]
            ∧ video_id row = id (video (S3.pulled p))
            ∧ is_Some (S3.thumbs st' !! thumbnail row)
            ∧ S3.total_processed st' = S3.total_processed st + 1
     else S3.rows st' = S3.rows st
          ∧ S3.total_processed st' = S3.total_processed st).
Proof.
  unfold S3.enrich.
  destruct (S3.build_row (video (S3.pulled p))) as [row |] eqn:Hrow; [| done].
  apply s3_build_row_fields in Hrow as [Hid Hthumb].
  pose proof (s3_thumbnail_step_effect p st) as Hstep. cbv zeta in Hstep.
  destruct (S3.thumbnail_step p st) as [st1 ok]; simpl in Hstep.
  destruct Hstep as (H1 & H2 & H3 & H4 & H5 & H6 & H7 & H8).
  destruct ok; [| done]. unfold S3.comments_step.
  case_bool_decide; cbn; split_and!; try done.
  all: eexists (set_top_comments _ row); cbn;
    split_and!; [by rewrite H1 | done | rewrite Hthumb; by apply H8 | lia].
Qed.

(** What one [save_batch_to_s3] call of the collector changes. *)
Lemma s3_save_batch_effect c st :
  let st' := S3.save_batch c st in
  S3.rows st' = S3.rows st ∧ S3.attempts st' = S3.attempts st
  ∧ S3.total_processed st' = S3.total_processed st
  ∧ S3.elapsed_time st' = S3.elapsed_time st
  ∧ S3.thumbs st' = S3.thumbs st
  ∧ S3.batch_count st' = S3.batch_count st + 1
  ∧ S3.table st' = Merger.object_after (Merger.save_batch_to_s3 c (S3.rows st) (S3.table st)).
Proof. done. Qed.

(** Invariants of the loops: what the statements around the body keep and
    one counted turn keeps, for the pulls of the feeds, the loops keep. *)
Section Invariant.
Variable P : S3.State → Prop.
Variable Q : S3.Pull → Prop.
Variable cfg : S3.Config.
Hypothesis P_pull : ∀ st vid, P st → P (S3.log (EvPull vid) st).
Hypothesis P_clock : ∀ st t, P st → P (S3.set_elapsed t st).
Hypothesis P_sleep : ∀ st, P st → P (S3.log EvSleep st).
Hypothesis P_turn : ∀ p st,
  Q p → P st →
  ¬ S3.MAX_EXECUTION_TIME cfg < S3.clock p →
  ¬ S3.REQUEST_CAP cfg ≤ S3.attempts st →
  P (s3_state_of (S3.body cfg p (S3.incr_attempts st))).

Lemma s3_videos_loop_invariant items raises vp st :
  Forall Q items → P st → P (S3.videos_loop cfg items raises vp st).1.
Proof.
  revert vp st. induction items as [|p items IH]; intros vp st HQ HP; simpl.
  { by destruct raises. }
  apply Forall_cons in HQ as [Hp HQ].
  set (st0 := S3.set_elapsed (S3.clock p) (S3.log (EvPull (id (video (S3.pulled p)))) st)).
  assert (P st0) as HP0 by (by apply P_clock, P_pull).
  case_bool_decide as Htime; [done |]. case_bool_decide as Hcap; [done |].
  pose proof (P_turn p st0 Hp HP0 Htime Hcap) as Hb.
  destruct (S3.body cfg p (S3.incr_attempts st0)) as [st1 | st1 | st1]; simpl in Hb.
  - by apply IH.
  - case_bool_decide; [done |]. apply IH; [done |]. by apply P_sleep.
  - done.
Qed.

Lemma s3_terms_loop_invariant terms st :
  Forall (λ t, Forall Q (items (S3.feed t))) terms →
  P st → P (S3.terms_loop cfg terms st).
Proof.
  revert st. induction terms as [|t terms IH]; intros st HQ HP; simpl; [done |].
  apply Forall_cons in HQ as [Ht HQ].
  case_bool_decide; [by apply P_clock |].
  pose proof (s3_videos_loop_invariant (items (S3.feed t)) (feed_raises (S3.feed t)) 0
                (S3.set_elapsed (S3.clock_at_start t) st) Ht (P_clock _ _ HP)) as Hl.
  destruct (S3.videos_loop cfg _ _ 0 _) as [st1 ex]. simpl in Hl.
  destruct ex; try (destruct (_ || _); [done |]); by apply IH.
Qed.
End Invariant.

Lemma s3_flush_effect cfg c st :
  let st' := S3.save_batch_if_needed cfg c st in
  S3.attempts st' = S3.attempts st
  ∧ S3.total_processed st' = S3.total_processed st
  ∧ S3.elapsed_time st' = S3.elapsed_time st
  ∧ S3.thumbs st' = S3.thumbs st
  ∧ (if bool_decide (S3.BATCH_SIZE cfg ≤ Z.of_nat (length (S3.rows st)))
     then S3.rows st' = [] ∧ S3.batch_count st' = S3.batch_count st + 1
          ∧ S3.table st'
            = Merger.object_after (Merger.save_batch_to_s3 c (S3.rows st) (S3.table st))
     else st' = st).
Proof. unfold S3.save_batch_if_needed. by case_bool_decide. Qed.

(** One counted turn: the body after [attempts += 1]. *)
Lemma s3_turn_effect cfg p st :
  let r := S3.enrich p (S3.incr_attempts st) in
  let st' := s3_state_of (S3.body cfg p (S3.incr_attempts st)) in
  S3.attempts st' = S3.attempts st + 1
  ∧ S3.elapsed_time st' = S3.elapsed_time st
  ∧ S3.thumbs st' = S3.thumbs (s3_state_of r)
  ∧ S3.total_processed st' = S3.total_processed (s3_state_of r)
  ∧ st' = (if s3_appended r
           then S3.save_batch_if_needed cfg (S3.batch_call p) (s3_state_of r)
           else s3_state_of r).
Proof.
  pose proof (s3_enrich_effect p (S3.incr_attempts st)) as He. cbv zeta in He.
  destruct He as (H1 & H2 & H3 & H4 & H5 & H6).
  unfold S3.body. cbv zeta.
  destruct (S3.enrich p (S3.incr_attempts st)) as [s | s | s]; simpl in *; try done.
  pose proof (s3_flush_effect cfg (S3.batch_call p) s) as Hf. cbv zeta in Hf.
  destruct Hf as (F1 & F2 & F3 & F4 & _). split_and!; congruence.
Qed.
End S3Run.

Section S3Theorems.
Context `{!MediaNormalizer}.
Implicit Types (cfg : S3.Config) (p : S3.Pull) (st : S3.State).

Lemma all_pulls_True (terms : list S3.Term) :
  Forall (λ t, Forall (λ _ : S3.Pull, True) (items (S3.feed t))) terms.
Proof. induction terms; constructor; [by apply Forall_true | done]. Qed.

Lemma s3_run_counters cfg terms st :
  let st' := S3.terms_loop cfg terms st in
  S3.attempts st ≤ S3.attempts st' ≤ Z.max (S3.attempts st) (S3.REQUEST_CAP cfg)
  ∧ 0 ≤ S3.total_processed st' - S3.total_processed st
      ≤ S3.attempts st' - S3.attempts st.
Proof.
  intros st'. subst st'.
  apply (s3_terms_loop_invariant
           (λ s, S3.attempts st ≤ S3.attempts s
                   ≤ Z.max (S3.attempts st) (S3.REQUEST_CAP cfg)
                 ∧ 0 ≤ S3.total_processed s - S3.total_processed st
                     ≤ S3.attempts s - S3.attempts st)
           (λ _, True)); try done.
  - intros p s _ (Ha & Ht) _ Hcap.
    destruct (s3_turn_effect cfg p s) as (T1 & _ & _ & T4 & _).
    destruct (s3_enrich_effect p (S3.incr_attempts s)) as (_ & _ & _ & _ & _ & E6).
    rewrite T1, T4. destruct (s3_appended _).
    + destruct E6 as (? & _ & _ & _ & ->). simpl. lia.
    + destruct E6 as [_ ->]. simpl. lia.
  - apply all_pulls_True.
  - lia.
Qed.

(** The buffer stays below the batch size and every flush inside the loops
    carries exactly [BATCH_SIZE] rows. *)
Lemma s3_run_batches cfg terms st :
  1 ≤ S3.BATCH_SIZE cfg →
  Z.of_nat (length (S3.rows st)) < S3.BATCH_SIZE cfg →
  let st' := S3.terms_loop cfg terms st in
  Z.of_nat (length (S3.rows st')) < S3.BATCH_SIZE cfg
  ∧ S3.total_processed st' - S3.total_processed st
    = S3.BATCH_SIZE cfg * (S3.batch_count st' - S3.batch_count st)
      + Z.of_nat (length (S3.rows st')) - Z.of_nat (length (S3.rows st)).
Proof.
  intros Hbatch Hlen st'. subst st'.
  apply (s3_terms_loop_invariant
           (λ s, Z.of_nat (length (S3.rows s)) < S3.BATCH_SIZE cfg
                 ∧ S3.total_processed s - S3.total_processed st
                   = S3.BATCH_SIZE cfg * (S3.batch_count s - S3.batch_count st)
                     + Z.of_nat (length (S3.rows s)) - Z.of_nat (length (S3.rows st)))
           (λ _, True)); try done.
  - intros p s _ (Hl & Ht) _ _.
    destruct (s3_turn_effect cfg p s) as (_ & _ & _ & _ & ->).
    destruct (s3_enrich_effect p (S3.incr_attempts s)) as (_ & E2 & _ & _ & _ & E6).
    destruct (s3_appended _).
    + destruct E6 as (row & Hrows & _ & _ & Htot).
      pose proof (s3_flush_effect cfg (S3.batch_call p)
                    (s3_state_of (S3.enrich p (S3.incr_attempts s)))) as Hf.
      cbv zeta in Hf. destruct Hf as (_ & F2 & _ & _ & F5).
      rewrite F2, Htot. rewrite Hrows, length_app in F5. simpl in *.
      case_bool_decide.
      * destruct F5 as (-> & -> & _). rewrite E2. simpl. lia.
      * rewrite F5, Hrows, length_app, E2. simpl. lia.
    + destruct E6 as [-> ->]. rewrite E2. simpl. done.
  - apply all_pulls_True.
  - split; [done | lia].
Qed.

(** Every row in the buffer, and every row that a flush added to the
    table, has its thumbnail in the bucket. *)
Lemma s3_run_thumbnails cfg terms st (old : list Row) :
  (∀ r, r ∈ S3.rows st → is_Some (S3.thumbs st !! thumbnail r)) →
  (∀ t r, S3.table st = Some t → r ∈ t →
          r ∈ old ∨ is_Some (S3.thumbs st !! thumbnail r)) →
  let st' := S3.terms_loop cfg terms st in
  (∀ r, r ∈ S3.rows st' → is_Some (S3.thumbs st' !! thumbnail r))
  ∧ (∀ t r, S3.table st' = Some t → r ∈ t →
            r ∈ old ∨ is_Some (S3.thumbs st' !! thumbnail r))
  ∧ (∀ key, is_Some (S3.thumbs st !! key) → is_Some (S3.thumbs st' !! key)).
Proof.
  intros Hrows Htable st'. subst st'.
  apply (s3_terms_loop_invariant
           (λ s, (∀ r, r ∈ S3.rows s → is_Some (S3.thumbs s !! thumbnail r))
                 ∧ (∀ t r, S3.table s = Some t → r ∈ t →
                           r ∈ old ∨ is_Some (S3.thumbs s !! thumbnail r))
                 ∧ (∀ key, is_Some (S3.thumbs st !! key) → is_Some (S3.thumbs s !! key)))
           (λ _, True)); try done.
  - intros p s _ (Hr & Ht & Hk) _ _.
    destruct (s3_turn_effect cfg p s) as (_ & _ & T3 & _ & T5).
    destruct (s3_enrich_effect p (S3.incr_attempts s)) as (_ & _ & _ & E4 & E5 & E6).
    set (s1 := s3_state_of (S3.enrich p (S3.incr_attempts s))) in *.
    assert (∀ r, r ∈ S3.rows s1 → is_Some (S3.thumbs s1 !! thumbnail r)) as Hr1.
    { destruct (s3_appended _).
      - destruct E6 as (row & -> & _ & Hthumb & _). intros r Hin.
        apply elem_of_app in Hin as [Hin | Hin]; [by apply E5, Hr |].
        apply list_elem_of_singleton in Hin as ->. done.
      - destruct E6 as [-> _]. intros r Hin. by apply E5, Hr. }
    assert (∀ t r, S3.table s1 = Some t → r ∈ t →
                   r ∈ old ∨ is_Some (S3.thumbs s1 !! thumbnail r)) as Ht1.
    { intros t r Htab Hin. rewrite E4 in Htab.
      destruct (Ht t r Htab Hin) as [? | ?]; [by left | right; by apply E5]. }
    assert (∀ key, is_Some (S3.thumbs st !! key) → is_Some (S3.thumbs s1 !! key)) as Hk1.
    { intros key Hkey. by apply E5, Hk. }
    rewrite T5. destruct (s3_appended _); [| done].
    pose proof (s3_flush_effect cfg (S3.batch_call p) s1) as Hf. cbv zeta in Hf.
    destruct Hf as (_ & _ & _ & F4 & F5). case_bool_decide; [| by rewrite F5].
    destruct F5 as (F5 & _ & F6). rewrite F4. split_and!; [| | done].
    + rewrite F5. intros r Hin. by apply not_elem_of_nil in Hin.
    + intros t r Htab Hin. rewrite F6 in Htab.
      destruct (save_batch_rows_from _ _ _ _ _ Htab Hin) as [? | (e & ? & ?)]; eauto.
  - apply all_pulls_True.
Qed.

(** When no load mistakes an error for an absent table, the table only
    grows at its end. *)
Lemma s3_run_append_only cfg terms st :
  Forall (λ t, Forall (λ p, Merger.get_outcome (S3.batch_call p) ≠ Merger.GetClientError)
                 (items (S3.feed t))) terms →
  let st' := S3.terms_loop cfg terms st in
  ∀ existing_df, S3.table st = Some existing_df →
    ∃ stored, S3.table st' = Some stored ∧ existing_df `prefix_of` stored.
Proof.
  intros Hcalls st' e He. subst st'.
  apply (s3_terms_loop_invariant
           (λ s, ∃ stored, S3.table s = Some stored ∧ e `prefix_of` stored)
           (λ p, Merger.get_outcome (S3.batch_call p) ≠ Merger.GetClientError) cfg);
    try done.
  - intros p s Hp (stored & Hs & Hpre) _ _.
    destruct (s3_turn_effect cfg p s) as (_ & _ & _ & _ & ->).
    destruct (s3_enrich_effect p (S3.incr_attempts s)) as (_ & _ & _ & E4 & _ & _).
    simpl in E4. destruct (s3_appended _); [| exists stored; by rewrite E4].
    pose proof (s3_flush_effect cfg (S3.batch_call p)
                  (s3_state_of (S3.enrich p (S3.incr_attempts s)))) as Hf.
    cbv zeta in Hf. destruct Hf as (_ & _ & _ & _ & F5).
    case_bool_decide; [| rewrite F5; exists stored; by rewrite E4].
    destruct F5 as (_ & _ & ->). rewrite E4, Hs.
    destruct (save_batch_appends (S3.batch_call p)
                (S3.rows (s3_state_of (S3.enrich p (S3.incr_attempts s))))
                (Some stored) Hp) as (new_df & _ & _ & ->).
    eexists. split; [done |]. etrans; [exact Hpre |]. by apply prefix_app_r.
  - exists e. by split.
Qed.

(** With the budget used up, or the time, nothing is processed. *)
Lemma s3_run_nothing_left cfg terms st :
  (S3.REQUEST_CAP cfg ≤ S3.attempts st
   ∨ Forall (λ t, Forall (λ p, S3.MAX_EXECUTION_TIME cfg < S3.clock p)
                    (items (S3.feed t))) terms) →
  let st' := S3.terms_loop cfg terms st in
  S3.rows st' = S3.rows st ∧ S3.attempts st' = S3.attempts st
  ∧ S3.total_processed st' = S3.total_processed st
  ∧ S3.batch_count st' = S3.batch_count st
  ∧ S3.thumbs st' = S3.thumbs st ∧ S3.table st' = S3.table st
  ∧ calls is_http_get (S3.trace st') = calls is_http_get (S3.trace st)
  ∧ calls is_fetch_comments (S3.trace st') = calls is_fetch_comments (S3.trace st).
Proof.
  intros Hwhy st'. subst st'.
  set (P := λ s : S3.State,
         S3.rows s = S3.rows st ∧ S3.attempts s = S3.attempts st
         ∧ S3.total_processed s = S3.total_processed st
         ∧ S3.batch_count s = S3.batch_count st
         ∧ S3.thumbs s = S3.thumbs st ∧ S3.table s = S3.table st
         ∧ calls is_http_get (S3.trace s) = calls is_http_get (S3.trace st)
         ∧ calls is_fetch_comments (S3.trace s) = calls is_fetch_comments (S3.trace st)).
  assert (Hlog : ∀ s e, is_http_get e = false → is_fetch_comments e = false →
                        P s → P (S3.log e s)).
  { intros s e H1 H2 (?&?&?&?&?&?&?&?). unfold P. simpl.
    rewrite !calls_snoc, H1, H2. split_and!; try done; lia. }
  destruct Hwhy as [Hcap | Htime].
  - apply (s3_terms_loop_invariant P (λ _, True) cfg); try done.
    + intros. by apply Hlog.
    + intros. by apply Hlog.
    + intros p s _ (_ & Ha & _) _ Hn. rewrite Ha in Hn. lia.
    + apply all_pulls_True.
  - apply (s3_terms_loop_invariant P (λ p, S3.MAX_EXECUTION_TIME cfg < S3.clock p) cfg);
      try done.
    + intros. by apply Hlog.
    + intros. by apply Hlog.
Qed.
End S3Theorems.

(** X16: the counters a run of the S3 collector reports: the videos
    processed are at most the attempts made, and these are at most the
    request cap (or 0 if the cap is negative). *)
Theorem collect_counts_within_budget `{!MediaNormalizer} (cfg : S3.Config)
    (ms_tokens : list string) (terms : list S3.Term) (last_call : Merger.S3Call)
    (bucket : gmap string string) (tbl : option (list Row)) :
  let st := (S3.collect_tiktok_data cfg ms_tokens terms last_call bucket tbl).2 in
  0 ≤ S3.total_processed st ≤ S3.attempts st
  ∧ S3.attempts st ≤ Z.max 0 (S3.REQUEST_CAP cfg).
Proof.
  unfold S3.collect_tiktok_data. destruct ms_tokens as [|tok toks]; [simpl; lia |].
  pose proof (s3_run_counters cfg terms (S3.initial bucket tbl)) as Hc.
  cbv zeta in Hc. simpl in Hc. cbn [snd].
  destruct (S3.rows _); [lia |].
  destruct (s3_save_batch_effect last_call (S3.terms_loop cfg terms (S3.initial bucket tbl)))
    as (_ & -> & -> & _). lia.
Qed.

(** X17: with a batch size of at least 1 the buffer of the S3 collector
    never reaches the batch size, every flush inside the loops carries
    exactly [BATCH_SIZE] rows and the final one the rest, so that the number
    of batches reported is the number of videos processed divided by the
    batch size, rounded up. *)
Theorem collect_batches_are_full `{!MediaNormalizer} (cfg : S3.Config)
    (ms_tokens : list string) (terms : list S3.Term) (last_call : Merger.S3Call)
    (bucket : gmap string string) (tbl : option (list Row)) :
  1 ≤ S3.BATCH_SIZE cfg →
  let st := (S3.collect_tiktok_data cfg ms_tokens terms last_call bucket tbl).2 in
  Z.of_nat (length (S3.rows st)) < S3.BATCH_SIZE cfg
  ∧ S3.total_processed st
    = S3.BATCH_SIZE cfg
      * (S3.batch_count st - (if bool_decide (S3.rows st = []) then 0 else 1))
      + Z.of_nat (length (S3.rows st)).
Proof.
  intros Hbatch. unfold S3.collect_tiktok_data.
  destruct ms_tokens as [|tok toks]; [simpl; lia |].
  destruct (s3_run_batches cfg terms (S3.initial bucket tbl) Hbatch) as [Hlen Htot];
    [simpl; lia |].
  simpl in Htot. cbn [snd].
  destruct (S3.rows (S3.terms_loop cfg terms (S3.initial bucket tbl))) as [|r rs] eqn:Hrows.
  - rewrite Hrows. simpl in *. lia.
  - destruct (s3_save_batch_effect last_call (S3.terms_loop cfg terms (S3.initial bucket tbl)))
      as (-> & _ & -> & _ & _ & -> & _).
    rewrite Hrows in *. rewrite bool_decide_eq_false_2 by done. lia.
Qed.

(** The batches of a run with batch size 2 over three eligible videos. *)
Lemma collect_batches_are_full_witness :
  let cfg := S3.mkConfig 5 10 2 840 in
  let feed := mkFeed (Sample.s3_pull <$> (Sample.eligible <$> ["a"; "b"; "c"])) false in
  let st := (@S3.collect_tiktok_data Sample.normalizer cfg ["token"]
               [S3.mkTerm 0 feed] Sample.s3_ok ∅ None).2 in
  1 ≤ S3.BATCH_SIZE cfg
  ∧ Z.of_nat (length (S3.rows st)) < 2
  ∧ S3.total_processed st
    = 2 * (S3.batch_count st - (if bool_decide (S3.rows st = []) then 0 else 1))
      + Z.of_nat (length (S3.rows st)).
Proof.
  intros cfg feed st.
  assert (Hbatch : 1 ≤ S3.BATCH_SIZE cfg) by (by vm_compute).
  split; [exact Hbatch |].
  exact (@collect_batches_are_full Sample.normalizer cfg ["token"] [S3.mkTerm 0 feed]
           Sample.s3_ok ∅ None Hbatch).
Defined.

(** X18: the S3 collector never keeps a row without its thumbnail: every
    row in the buffer at the end of a run, and every row of the stored table
    that was not in the table before the run, names a thumbnail object that
    is in the bucket; and no object that was in the bucket is gone. *)
Theorem collect_rows_have_thumbnails `{!MediaNormalizer} (cfg : S3.Config)
    (ms_tokens : list string) (terms : list S3.Term) (last_call : Merger.S3Call)
    (bucket : gmap string string) (tbl : option (list Row)) :
  let st := (S3.collect_tiktok_data cfg ms_tokens terms last_call bucket tbl).2 in
  (∀ r, r ∈ S3.rows st → is_Some (S3.thumbs st !! thumbnail r))
  ∧ (∀ stored r, S3.table st = Some stored → r ∈ stored →
       r ∈ default [] tbl ∨ is_Some (S3.thumbs st !! thumbnail r))
  ∧ (∀ key, is_Some (bucket !! key) → is_Some (S3.thumbs st !! key)).
Proof.
  unfold S3.collect_tiktok_data. destruct ms_tokens as [|tok toks].
  { simpl. split_and!; [| | done].
    - intros r Hr. by apply not_elem_of_nil in Hr.
    - intros stored r -> Hr. by left. }
  destruct (s3_run_thumbnails cfg terms (S3.initial bucket tbl) (default [] tbl))
    as (Hrows & Htable & Hkeys).
  { intros r Hr. by apply not_elem_of_nil in Hr. }
  { simpl. intros t r -> Hr. by left. }
  cbn [snd]. set (st1 := S3.terms_loop cfg terms (S3.initial bucket tbl)) in *.
  destruct (S3.rows st1) as [|x xs] eqn:Hx; [rewrite Hx; done |].
  destruct (s3_save_batch_effect last_call st1) as (E1 & _ & _ & _ & E5 & _ & E7).
  rewrite E1, E5, E7. split_and!; [by rewrite Hx | | done].
  intros stored r Hafter Hin.
  destruct (save_batch_rows_from _ _ _ _ _ Hafter Hin) as [Hr | (e & He & Hr)]; [| eauto].
  rewrite Hx in Hr. eauto.
Qed.

(** X19: as long as no load of the table fails with a [ClientError] other
    than [NoSuchKey], a run of the S3 collector only appends to the stored
    table: the table found at the start is a prefix of the table at the
    end. *)
Theorem collect_table_is_append_only `{!MediaNormalizer} (cfg : S3.Config)
    (ms_tokens : list string) (terms : list S3.Term) (last_call : Merger.S3Call)
    (bucket : gmap string string) (existing_df : list Row) :
  Forall (λ t, Forall (λ p, Merger.get_outcome (S3.batch_call p) ≠ Merger.GetClientError)
                 (items (S3.feed t))) terms →
  Merger.get_outcome last_call ≠ Merger.GetClientError →
  let st := (S3.collect_tiktok_data cfg ms_tokens terms last_call bucket
               (Some existing_df)).2 in
  ∃ stored, S3.table st = Some stored ∧ existing_df `prefix_of` stored.
Proof.
  intros Hcalls Hlast. unfold S3.collect_tiktok_data.
  destruct ms_tokens as [|tok toks]; [by exists existing_df |].
  destruct (s3_run_append_only cfg terms (S3.initial bucket (Some existing_df)) Hcalls
              existing_df eq_refl) as (stored & Hs & Hpre).
  cbn [snd]. set (st1 := S3.terms_loop cfg terms _) in *.
  destruct (S3.rows st1) as [|x xs] eqn:Hx; [by exists stored |].
  destruct (s3_save_batch_effect last_call st1) as (_ & _ & _ & _ & _ & _ & ->).
  rewrite Hs.
  destruct (save_batch_appends last_call (S3.rows st1) (Some stored) Hlast)
    as (new_df & _ & _ & ->).
  eexists. split; [done |]. etrans; [exact Hpre |]. by apply prefix_app_r.
Qed.

(** The table [A, B] stays in front when a run adds a video. *)
Lemma collect_table_is_append_only_witness :
  let feed := mkFeed [Sample.s3_pull (Sample.eligible "v")] false in
  Merger.get_outcome Sample.s3_ok ≠ Merger.GetClientError
  ∧ ∃ stored,
      S3.table (@S3.collect_tiktok_data Sample.normalizer (S3.mkConfig 5 10 25 840)
                  ["token"] [S3.mkTerm 0 feed] Sample.s3_ok ∅
                  (Some Sample.existing_AB)).2 = Some stored
      ∧ Sample.existing_AB `prefix_of` stored.
Proof.
  intros feed. split; [done |].
  apply (@collect_table_is_append_only Sample.normalizer); [| done].
  repeat constructor; done.
Defined.

(** X20: when the request cap is used up, or every clock reading is past
    the time limit, a run of the S3 collector processes nothing: no attempt
    is counted, no row, thumbnail or table is written, and neither a cover
    nor a comment page is requested. *)
Theorem collect_with_nothing_left `{!MediaNormalizer} (cfg : S3.Config)
    (ms_tokens : list string) (terms : list S3.Term) (last_call : Merger.S3Call)
    (bucket : gmap string string) (tbl : option (list Row)) :
  (S3.REQUEST_CAP cfg ≤ 0
   ∨ Forall (λ t, Forall (λ p, S3.MAX_EXECUTION_TIME cfg < S3.clock p)
                    (items (S3.feed t))) terms) →
  let st := (S3.collect_tiktok_data cfg ms_tokens terms last_call bucket tbl).2 in
  S3.rows st = [] ∧ S3.attempts st = 0 ∧ S3.total_processed st = 0
  ∧ S3.batch_count st = 0 ∧ S3.thumbs st = bucket ∧ S3.table st = tbl
  ∧ calls is_http_get (S3.trace st) = 0%nat
  ∧ calls is_fetch_comments (S3.trace st) = 0%nat.
Proof.
  intros Hwhy. unfold S3.collect_tiktok_data.
  destruct ms_tokens as [|tok toks]; [done |].
  destruct (s3_run_nothing_left cfg terms (S3.initial bucket tbl) Hwhy)
    as (H1 & H2 & H3 & H4 & H5 & H6 & H7 & H8).
  cbn [snd]. rewrite H1. simpl. done.
Qed.

(** A run whose only clock reading is past the limit. *)
Lemma collect_with_nothing_left_witness :
  let cfg := S3.mkConfig 5 10 25 840 in
  let late := S3.mkPull (Sample.eligible "v") 900 false true Sample.s3_ok in
  let terms := [S3.mkTerm 0 (mkFeed [late] false)] in
  Forall (λ t, Forall (λ p, S3.MAX_EXECUTION_TIME cfg < S3.clock p)
                 (items (S3.feed t))) terms
  ∧ S3.rows (@S3.collect_tiktok_data Sample.normalizer cfg ["token"] terms
               Sample.s3_ok ∅ None).2 = [].
Proof.
  intros cfg late terms.
  assert (Hlate : Forall (λ t, Forall (λ p, S3.MAX_EXECUTION_TIME cfg < S3.clock p)
                                 (items (S3.feed t))) terms).
  { repeat constructor. }
  split; [exact Hlate |].
  exact (proj1 (@collect_with_nothing_left Sample.normalizer cfg ["token"] terms
                  Sample.s3_ok ∅ None (or_intror Hlate))).
Defined.

(** ** Rows of the file-based collectors *)

Section FileCollectors.
Context `{!MediaNormalizer}.
Local Arguments calls : simpl never.

(** Rows appended by one term's loop of the local collector. *)
Lemma local_videos_loop_rows cfg feed raises vp st :
  let r := Local.videos_loop cfg feed raises vp st in
  0 ≤ Z.of_nat (length (rows r.1)) - Z.of_nat (length (rows st))
    ≤ Z.max 1 (Local.VIDEOS_PER_TAG cfg - vp)
  ∧ Z.of_nat (length (rows r.1)) - Z.of_nat (length (rows st))
    ≤ attempts r.1 - attempts st.
Proof.
  revert vp st. induction feed as [|p feed IH]; intros vp st; simpl.
  { destruct raises; simpl; lia. }
  case_bool_decide; simpl; [lia |].
  set (s0 := incr_attempts (log (EvPull (id (video p))) st)).
  pose proof (local_body_rows cfg p s0) as Hr.
  pose proof (local_body_attempts cfg p s0) as Ha.
  assert (rows s0 = rows st) as Hs0 by done.
  assert (attempts s0 = attempts st + 1) as Ha0 by done.
  rewrite Hs0 in Hr. rewrite Ha0 in Ha. clearbody s0.
  destruct (Local.body cfg p s0) as [st1 | st1 | st1]; simpl in Ha.
  - specialize (IH vp st1). cbv zeta in IH. rewrite Hr, Ha in IH. lia.
  - destruct Hr as (row & Hr & _). case_bool_decide; simpl.
    + rewrite Hr, length_app. simpl. lia.
    + set (st2 := log EvSleep st1).
      set (st3 := if bool_decide (attempts st1 `mod` 20 = 0) then log EvLongSleep st2 else st2).
      assert (rows st3 = rows st1 ∧ attempts st3 = attempts st1) as [Hr3 Ha3].
      { subst st3 st2. by case_bool_decide. }
      specialize (IH (vp + 1) st3). cbv zeta in IH.
      rewrite Hr3, Ha3, Hr, length_app in IH. simpl in IH. lia.
  - simpl. rewrite Hr. lia.
Qed.

Lemma local_terms_loop_rows cfg feeds st :
  let st' := Local.terms_loop cfg feeds st in
  0 ≤ Z.of_nat (length (rows st')) - Z.of_nat (length (rows st))
    ≤ Z.of_nat (length feeds) * Z.max 1 (Local.VIDEOS_PER_TAG cfg)
  ∧ Z.of_nat (length (rows st')) - Z.of_nat (length (rows st))
    ≤ attempts st' - attempts st.
Proof.
  revert st. induction feeds as [|f feeds IH]; intros st; simpl; [lia |].
  pose proof (local_videos_loop_rows cfg (items f) (feed_raises f) 0 st) as Hl.
  cbv zeta in Hl. rewrite Z.sub_0_r in Hl.
  destruct (Local.videos_loop cfg (items f) (feed_raises f) 0 st) as [st1 ex].
  simpl in Hl. specialize (IH st1). cbv zeta in IH.
  assert (0 ≤ Z.max 1 (Local.VIDEOS_PER_TAG cfg)) by lia.
  destruct ex; try (case_bool_decide; [nia |]); nia.
Qed.

(** Invariants of the legacy loops. *)
Section LegacyInvariant.
Variable P : State → Prop.
Variable cfg : Legacy.Config.
Hypothesis P_pull : ∀ st vid, P st → P (log (EvPull vid) st).
Hypothesis P_sleep : ∀ st, P st → P (log EvSleep st).
Hypothesis P_long_sleep : ∀ st, P st → P (log EvLongSleep st).
Hypothesis P_turn : ∀ p st,
  P st → ¬ Legacy.REQUEST_CAP cfg ≤ attempts st →
  P (state_of (Legacy.body cfg p (incr_attempts st))).

Lemma legacy_videos_loop_invariant feed raises st :
  P st → P (Legacy.videos_loop cfg feed raises st).1.
Proof.
  revert st. induction feed as [|p feed IH]; intros st HP; simpl.
  { by destruct raises. }
  case_bool_decide as Hcap; simpl; [by apply P_pull |].
  pose proof (P_turn p _ (P_pull _ (id (Legacy.video p)) HP) Hcap) as Hb.
  destruct (Legacy.body cfg p _) as [st1 | st1 | st1]; simpl in Hb.
  - by apply IH.
  - apply IH. case_bool_decide; [apply P_long_sleep |]; by apply P_sleep.
  - done.
Qed.

Lemma legacy_terms_loop_invariant feeds st :
  P st → P (Legacy.terms_loop cfg feeds st).
Proof.
  revert st. induction feeds as [|f feeds IH]; intros st HP; simpl; [done |].
  pose proof (legacy_videos_loop_invariant (items f) (feed_raises f) st HP) as Hl.
  destruct (Legacy.videos_loop cfg (items f) (feed_raises f) st) as [st1 ex].
  simpl in Hl. destruct ex; try (case_bool_decide; [done |]); by apply IH.
Qed.
End LegacyInvariant.

Lemma legacy_build_row_fields v row :
  Legacy.build_row v = Some row →
  video_id row = id v ∧ hashtags row = extract_hashtags <$> desc v.
Proof. unfold Legacy.build_row. intros Hrow. by simplify_option_eq. Qed.

(** What one turn of the legacy body changes. *)
Lemma legacy_body_effect cfg p st :
  let r := Legacy.body cfg p st in
  let st' := state_of r in
  attempts st' = attempts st
  ∧ (∀ loc jpeg, thumbs st !! loc = Some jpeg → thumbs st' !! loc = Some jpeg)
  ∧ (if appended r
     then ∃ row, rows st' = rows st ++ [row]
            ∧ video_id row = id (Legacy.video p)
            ∧ thumbnail row = thumb_path (id (Legacy.video p))
            ∧ is_Some (thumbs st' !! thumbnail row)
            ∧ Legacy.wrong_timestamp cfg (Legacy.video p) = false
            ∧ calls is_fetch_comments (trace st')
              = S (calls is_fetch_comments (trace st))
     else rows st' = rows st
          ∧ calls is_fetch_comments (trace st') = calls is_fetch_comments (trace st)).
Proof.
  unfold Legacy.body. destruct (Legacy.wrong_timestamp _ _) eqn:Hts; [done |].
  destruct (Legacy.build_row (Legacy.video p)) as [row |] eqn:Hrow; [| done].
  apply legacy_build_row_fields in Hrow as [Hid _].
  destruct (thumbs st !! thumb_path (id (Legacy.video p))) as [old |] eqn:Hold.
  - cbn. rewrite calls_snoc. cbn. split_and!; [done | done |].
    eexists. split_and!; [done | done | done | cbn; by rewrite Hold | done | lia].
  - destruct (bytes_cover (Legacy.video p)); [| done].
    destruct (normalize _) as [jpeg |]; cbn; rewrite ?calls_snoc; cbn.
    + split_and!; [done | |].
      * intros loc j Hloc. rewrite lookup_insert_ne; [done | congruence].
      * eexists. split_and!; [done | done | done | | done | lia].
        cbn. rewrite lookup_insert_eq. eauto.
    + split_and!; [done | done | done | lia].
Qed.
End FileCollectors.

Section CollectedRows.
Context `{!MediaNormalizer}.
Local Arguments calls : simpl never.

Lemma fetch_top_comments_length s n :
  (length (Ranker.fetch_top_comments s n) ≤ n)%nat.
Proof. rewrite fetch_top_comments_eq, length_fmap, length_take. lia. Qed.

Lemma fetch_top_comments_legacy_length tuples raises n :
  (length (Ranker.fetch_top_comments_legacy tuples raises n) ≤ n)%nat.
Proof.
  unfold Ranker.fetch_top_comments_legacy. destruct raises; simpl; [lia |].
  rewrite length_fmap, length_take. lia.
Qed.

Lemma local_build_row_fields v row :
  Local.build_row v = Some row →
  video_id row = id v ∧ posted_ts row = create_time v ∧ hashtags row = None
  ∧ comment_count row = default 0 (commentCount (stats v)).
Proof. unfold Local.build_row. intros Hrow. by simplify_option_eq. Qed.

(** The row that one turn of the local body appends. *)
Lemma local_body_row cfg p st :
  match Local.body cfg p st with
  | Appended st' =>
      ∃ r, rows st' = rows st ++ [r]
           ∧ ¬ posted_ts r < Local.ONE_YEAR_AGO cfg
           ∧ thumbnail r = thumb_path (video_id r)
           ∧ hashtags r = None
           ∧ (length (top_comments r) ≤ 5)%nat
           ∧ (comment_count r ≤ 0 → top_comments r = [])
  | Continue st' | Raises st' => rows st' = rows st
  end.
Proof.
  unfold Local.body, Local.too_old. case_bool_decide as Hold; [done |].
  destruct (Local.build_row (video p)) as [row |] eqn:Hrow; [| done].
  apply local_build_row_fields in Hrow as (Hid & Hts & Hh & Hcc).
  assert (∀ st1,
    let '(tc, st2) := Local.comments_step p st1 in
    ∃ r, rows (append_row (set_top_comments tc
                 (set_thumbnail (thumb_path (id (video p))) row)) st2)
         = rows st1 ++ [r]
         ∧ ¬ posted_ts r < Local.ONE_YEAR_AGO cfg
         ∧ thumbnail r = thumb_path (video_id r)
         ∧ hashtags r = None
         ∧ (length (top_comments r) ≤ 5)%nat
         ∧ (comment_count r ≤ 0 → top_comments r = [])) as Hstep.
  { intros st1. unfold Local.comments_step.
    case_bool_decide as Hpos; cbn; eexists; (split; [reflexivity |]); cbn;
      rewrite ?Hid, ?Hts, ?Hcc; split_and!; try done; try lia.
    apply fetch_top_comments_length. }
  unfold Local.thumbnail_step.
  destruct (thumbs st !! _).
  { specialize (Hstep st). by destruct (Local.comments_step p st). }
  destruct (cover (video p)); [| done].
  destruct (cover_response p) as [| status content]; [done |].
  case_bool_decide.
  - destruct (normalize content); [| done].
    specialize (Hstep (write_thumb (thumb_path (id (video p))) s0
      (log (EvPutThumb (thumb_path (id (video p))))
         (log (EvNormalize (thumb_path (id (video p))))
            (log (EvHttpGet (id (video p)) s) st))))).
    by destruct (Local.comments_step p _).
  - specialize (Hstep (log (EvHttpGet (id (video p)) s) st)).
    by destruct (Local.comments_step p _).
Qed.

Lemma legacy_build_row_more v row :
  Legacy.build_row v = Some row →
  posted_ts row = create_time v
  ∧ hashtags row = Some (extract_hashtags (description row)).
Proof. unfold Legacy.build_row. intros Hrow. by simplify_option_eq. Qed.

(** The row that one turn of the legacy body appends. *)
Lemma legacy_body_row cfg p st :
  match Legacy.body cfg p st with
  | Appended st' =>
      ∃ r, rows st' = rows st ++ [r]
           ∧ Legacy.TARGET_START cfg ≤ posted_ts r ≤ Legacy.TARGET_END cfg
           ∧ hashtags r = Some (extract_hashtags (description r))
           ∧ (length (top_comments r) ≤ 5)%nat
  | Continue st' | Raises st' => rows st' = rows st
  end.
Proof.
  unfold Legacy.body, Legacy.wrong_timestamp.
  destruct (bool_decide (Legacy.TARGET_START cfg ≤ _)) eqn:H1; [| done].
  destruct (bool_decide (_ ≤ Legacy.TARGET_END cfg)) eqn:H2; [| done].
  apply bool_decide_eq_true in H1, H2. cbn.
  destruct (Legacy.build_row (Legacy.video p)) as [row |] eqn:Hrow; [| done].
  apply legacy_build_row_more in Hrow as [Hts Hh].
  destruct (thumbs st !! _).
  - eexists. split; [reflexivity |]. cbn. rewrite Hts.
    split_and!; [done | done | done | apply fetch_top_comments_legacy_length].
  - destruct (bytes_cover (Legacy.video p)); [| done].
    destruct (normalize _); [| done].
    eexists. split; [reflexivity |]. cbn. rewrite Hts.
    split_and!; [done | done | done | apply fetch_top_comments_legacy_length].
Qed.
End CollectedRows.

(** X21: each search term adds at most [VIDEOS_PER_TAG] rows to the local
    run, and at most one when [VIDEOS_PER_TAG] is below 1, because the
    target is tested only after a row was appended; and no run has more
    rows than attempts. *)
Theorem local_rows_per_term `{!MediaNormalizer} (cfg : Local.Config)
    (feeds : list (Feed Pulled)) (dir : gmap string string) :
  let st := Local.terms_loop cfg feeds (initial dir) in
  Z.of_nat (length (rows st))
  ≤ Z.of_nat (length feeds) * Z.max 1 (Local.VIDEOS_PER_TAG cfg)
  ∧ Z.of_nat (length (rows st)) ≤ attempts st.
Proof.
  intros st. subst st.
  pose proof (local_terms_loop_rows cfg feeds (initial dir)) as Hr.
  cbn in Hr. lia.
Qed.

(** X22: in the local collector every collected row is of a video that is
    not older than [ONE_YEAR_AGO], names the thumbnail path of its own id,
    has no [hashtags] column, holds at most five top comments, and none
    when the video reports no comments. *)
Theorem local_rows_are_recent `{!MediaNormalizer} (cfg : Local.Config)
    (feeds : list (Feed Pulled)) (dir : gmap string string) :
  Forall (λ r, Local.ONE_YEAR_AGO cfg ≤ posted_ts r
               ∧ thumbnail r = thumb_path (video_id r)
               ∧ hashtags r = None
               ∧ (length (top_comments r) ≤ 5)%nat
               ∧ (comment_count r ≤ 0 → top_comments r = []))
         (rows (Local.terms_loop cfg feeds (initial dir))).
Proof.
  apply (local_terms_loop_invariant (λ st, Forall _ (rows st))); try done.
  intros p st HP. pose proof (local_body_row cfg p st) as Hb.
  destruct (Local.body cfg p st) as [st' | st' | st']; cbn; [by rewrite Hb | | by rewrite Hb].
  destruct Hb as (r & -> & Hts & Hrest). apply Forall_app. split; [done |].
  apply Forall_singleton. split; [lia | done].
Qed.

(** X23: in the legacy collector every collected row is of a video posted
    inside the target day, carries the hashtags of its description, holds at
    most five top comments and names a thumbnail that is in the thumbnail
    directory when the run ends; the comment feed was asked once for every
    row; and every thumbnail that was in the directory before the run is
    still there unchanged. *)
Theorem legacy_rows_are_complete `{!MediaNormalizer} (cfg : Legacy.Config)
    (feeds : list (Feed Legacy.Pulled)) (dir : gmap string string) :
  let st := Legacy.terms_loop cfg feeds (initial dir) in
  Forall (λ r, Legacy.TARGET_START cfg ≤ posted_ts r ≤ Legacy.TARGET_END cfg
               ∧ hashtags r = Some (extract_hashtags (description r))
               ∧ (length (top_comments r) ≤ 5)%nat
               ∧ thumbnail r = thumb_path (video_id r)
               ∧ is_Some (thumbs st !! thumbnail r))
         (rows st)
  ∧ calls is_fetch_comments (trace st) = length (rows st)
  ∧ ∀ loc jpeg, dir !! loc = Some jpeg → thumbs st !! loc = Some jpeg.
Proof.
  intros st. subst st.
  apply (legacy_terms_loop_invariant
    (λ st, Forall (λ r, Legacy.TARGET_START cfg ≤ posted_ts r ≤ Legacy.TARGET_END cfg
                        ∧ hashtags r = Some (extract_hashtags (description r))
                        ∧ (length (top_comments r) ≤ 5)%nat
                        ∧ thumbnail r = thumb_path (video_id r)
                        ∧ is_Some (thumbs st !! thumbnail r))
                  (rows st)
           ∧ calls is_fetch_comments (trace st) = length (rows st)
           ∧ ∀ loc jpeg, dir !! loc = Some jpeg → thumbs st !! loc = Some jpeg)).
  - intros st vid (? & ? & ?). cbn [log trace rows thumbs]. rewrite calls_snoc. cbn [is_fetch_comments]. split_and!; [done | lia | done].
  - intros st (? & ? & ?). cbn [log trace rows thumbs]. rewrite calls_snoc. cbn [is_fetch_comments]. split_and!; [done | lia | done].
  - intros st (? & ? & ?). cbn [log trace rows thumbs]. rewrite calls_snoc. cbn [is_fetch_comments]. split_and!; [done | lia | done].
  - intros p st (Hrows & Hcalls & Hdir) _.
    pose proof (legacy_body_effect cfg p (incr_attempts st)) as (_ & Hgrow & Heff).
    pose proof (legacy_body_row cfg p (incr_attempts st)) as Hrow.
    assert (Forall (λ r, Legacy.TARGET_START cfg ≤ posted_ts r ≤ Legacy.TARGET_END cfg
                        ∧ hashtags r = Some (extract_hashtags (description r))
                        ∧ (length (top_comments r) ≤ 5)%nat
                        ∧ thumbnail r = thumb_path (video_id r)
                        ∧ is_Some (thumbs (state_of (Legacy.body cfg p (incr_attempts st)))
                                     !! thumbnail r))
                   (rows st)) as Hold.
    { eapply Forall_impl; [exact Hrows |]. cbn. intros r (? & ? & ? & ? & [j Hj]).
      split; [done |]. split; [done |]. split; [done |]. split; [done |].
      exists j. by apply Hgrow. }
    destruct (Legacy.body cfg p (incr_attempts st)) as [st' | st' | st'];
      cbn [state_of appended] in *.
    + destruct Heff as [-> ->]. split_and!; [done | done | auto].
    + destruct Heff as (row & Hr & Hid & Hth & Hon & _ & ->).
      destruct Hrow as (row' & Hr' & Hts & Hh & Hlen).
      rewrite Hr in Hr'. apply app_inj_tail in Hr' as [_ <-].
      rewrite Hr. split_and!; [| rewrite length_app; cbn [length incr_attempts trace rows]; lia | auto].
      apply Forall_app. split; [done |]. apply Forall_singleton.
      split; [done |]. split; [done |]. split; [done |]. split; [congruence | done].
    + destruct Heff as [-> ->]. split_and!; [done | done | auto].
  - split_and!; [by apply Forall_nil | done | done].
Qed.
